(** * Rugged::BranchCollection (ext/rugged/rugged_branch_collection.c)

    A shallow embedding of the branch collection binding: the C functions of
    the file become functions in a small state-and-exception monad over an
    abstract version-control engine (libgit2), whose calls are recorded in a
    trace so that the order of store accesses can be stated. *)

From stdpp Require Import gmap strings list fin_maps.
From Stdlib Require Import ZArith Ascii String Lia.

Local Open Scope string_scope.
Local Open Scope Z_scope.

(** ** C strings *)

Module CString.

(** [strlen]: a host string that passed [StringValueCStr] has no inner NUL,
    so its C length is the length of the string. *)
Definition strlen (s : string) : nat := String.length s.

Definition char_code (c : ascii) : Z := Z.of_nat (nat_of_ascii c).

(** [strncmp(s1, s2, n)]: compares at most [n] characters; the end of a
    string is its terminating NUL (code 0). *)
Fixpoint strncmp (s1 s2 : string) (n : nat) : Z :=
  match n with
  | O => 0
  | S n' =>
    match s1, s2 with
    | EmptyString, EmptyString => 0
    | EmptyString, String c2 _ => 0 - char_code c2
    | String c1 _, EmptyString => char_code c1
    | String c1 t1, String c2 t2 =>
      if Ascii.eqb c1 c2 then strncmp t1 t2 n' else char_code c1 - char_code c2
    end
  end.

(** [strcmp(s1, s2)]. *)
Fixpoint strcmp (s1 s2 : string) : Z :=
  match s1, s2 with
  | EmptyString, EmptyString => 0
  | EmptyString, String c2 _ => 0 - char_code c2
  | String c1 _, EmptyString => char_code c1
  | String c1 t1, String c2 t2 =>
    if Ascii.eqb c1 c2 then strcmp t1 t2 else char_code c1 - char_code c2
  end.

(** [strcpy(dst, a); strcat(dst, b)] into a buffer of
    [strlen(a) + strlen(b) + 1] characters. *)
Definition strcat (a b : string) : string := a ++ b.

(** Does the string contain a NUL byte? *)
Fixpoint has_nul (s : string) : bool :=
  match s with
  | EmptyString => false
  | String c t => if Ascii.eqb c Ascii.zero then true else has_nul t
  end.

End CString.

(** ** The engine's data (git2 headers) *)

(** Modelled from the spec: [git_branch_t] is declared in git2/types.h, not
    under src/.  Section 4.1: the filter is Local, Remote or Local|Remote, a
    bit set with [GIT_BRANCH_LOCAL = 1] and [GIT_BRANCH_REMOTE = 2]. *)
Definition git_branch_t := Z.
Definition GIT_BRANCH_LOCAL : git_branch_t := 1.
Definition GIT_BRANCH_REMOTE : git_branch_t := 2.

(** Modelled from the spec: the error codes ([git_error_code]) are declared
    in git2/errors.h, not under src/; the file names [GIT_OK], [GIT_ENOTFOUND]
    and [GIT_ITEROVER].  Sections 4.1 and 7: NotFound ([GIT_ENOTFOUND]),
    AlreadyExists ([GIT_EEXISTS]), InvalidName ([GIT_EINVALIDSPEC]), IOError
    ([GIT_ERROR]); section 4.4: end of sequence ([GIT_ITEROVER]).  [GIT_OK] is
    [0] and every error code is negative. *)
Inductive git_error_code :=
| GIT_ERROR | GIT_ENOTFOUND | GIT_EEXISTS | GIT_EAMBIGUOUS | GIT_EBUFS
| GIT_EUSER | GIT_EBAREREPO | GIT_EUNBORNBRANCH | GIT_EUNMERGED
| GIT_ENONFASTFORWARD | GIT_EINVALIDSPEC | GIT_EMERGECONFLICT | GIT_ELOCKED
| GIT_PASSTHROUGH | GIT_ITEROVER.

#[global] Instance git_error_code_eq_dec : EqDecision git_error_code.
Proof. solve_decision. Defined.

Definition GIT_OK : Z := 0.

(** The [int] an error code stands for. *)
Definition git_errno (e : git_error_code) : Z :=
  match e with
  | GIT_ERROR => -1 | GIT_ENOTFOUND => -3 | GIT_EEXISTS => -4
  | GIT_EAMBIGUOUS => -5 | GIT_EBUFS => -6 | GIT_EUSER => -7
  | GIT_EBAREREPO => -8 | GIT_EUNBORNBRANCH => -9 | GIT_EUNMERGED => -10
  | GIT_ENONFASTFORWARD => -11 | GIT_EINVALIDSPEC => -12
  | GIT_EMERGECONFLICT => -13 | GIT_ELOCKED => -14
  | GIT_PASSTHROUGH => -30 | GIT_ITEROVER => -31
  end.

(** An engine call that fills an out-parameter: [GIT_OK] with the value, or
    an error code with the out-parameter left unset. *)
Inductive git_result (A : Type) :=
| Git_ok (a : A)
| Git_err (e : git_error_code).
Arguments Git_ok {A} a.
Arguments Git_err {A} e.

(** The [int error] the C code sees. *)
Definition error_of {A} (r : git_result A) : Z :=
  match r with
  | Git_ok _ => GIT_OK
  | Git_err e => git_errno e
  end.

(** Modelled from the spec: the engine's reference and commit types are
    declared in git2 headers, not under src/.  Section 3: a Reference is
    {name (fully qualified), target: CommitId | SymbolicTarget}; a CommitId
    is an opaque content hash. *)
Definition git_oid := string.

Inductive git_target :=
| Direct (id : git_oid)
| Symbolic (name : string).

Record git_reference := mk_reference {
  reference_name : string;
  reference_target : git_target
}.

Definition git_commit := git_oid.

#[global] Instance git_target_eq_dec : EqDecision git_target.
Proof. solve_decision. Defined.
#[global] Instance git_reference_eq_dec : EqDecision git_reference.
Proof. solve_decision. Defined.

(** Modelled from the spec: [git_reference_shorthand] is the engine's.
    Glossary: the shorthand name is a branch's name with its namespace prefix
    stripped. *)
Definition strip_prefix (p s : string) : option string :=
  if String.prefix p s
  then Some (String.substring (String.length p) (String.length s - String.length p) s)
  else None.

Definition git_reference_shorthand (r : git_reference) : string :=
  match strip_prefix "refs/heads/" (reference_name r) with
  | Some short => short
  | None =>
    match strip_prefix "refs/remotes/" (reference_name r) with
    | Some short => short
    | None => reference_name r
    end
  end.

(** Modelled from the spec: the store's cursor ([git_branch_iterator]) is the
    engine's.  Section 4.4: it advances through the filtered reference set in
    store-native order and ends Exhausted ([GIT_ITEROVER]) or Failed (another
    error code). *)
Record git_branch_iterator := mk_iterator {
  pending : list (git_reference * git_branch_t);
  final : git_error_code
}.

(** [git_branch_next(&branch, &branch_type, iter)]. *)
Definition git_branch_next_step (iter : git_branch_iterator)
  : git_result (git_reference * git_branch_t) * git_branch_iterator :=
  match pending iter with
  | [] => (Git_err (final iter), iter)
  | b :: rest => (Git_ok b, mk_iterator rest (final iter))
  end.

(** ** The host runtime's values

    The host runtime (its values, [Check_Type], [StringValueCStr],
    [rb_scan_args], [rb_protect]) is no part of the repository; each piece is
    written after its documented behaviour, as far as the file relies on it. *)

(** [ruby_value_type], as [TYPE(v)] reports it. *)
Inductive ruby_value_type :=
| T_NIL | T_TRUE | T_FALSE | T_STRING | T_SYMBOL | T_FIXNUM | T_DATA | T_OBJECT.

#[global] Instance ruby_value_type_eq_dec : EqDecision ruby_value_type.
Proof. solve_decision. Defined.

(** A [VALUE].  A [Rugged::Branch] (or an instance of a subclass) wraps a
    reference and answers [#canonical_name]; the answer is kept with the
    object because the C code checks its type. *)
Inductive VALUE :=
| Qnil
| Qtrue
| Qfalse
| RString (s : string)
| RSymbol (id : string)
| RFixnum (n : Z)
| RBranch (ref : git_reference) (canonical_name : VALUE)
| REnumerator (meth : VALUE) (arg : VALUE)
| RObject (class_name : string).

Definition TYPE (v : VALUE) : ruby_value_type :=
  match v with
  | Qnil => T_NIL
  | Qtrue => T_TRUE
  | Qfalse => T_FALSE
  | RString _ => T_STRING
  | RSymbol _ => T_SYMBOL
  | RFixnum _ => T_FIXNUM
  | RBranch _ _ => T_DATA
  | REnumerator _ _ => T_DATA
  | RObject _ => T_OBJECT
  end.

Definition NIL_P (v : VALUE) : bool :=
  match v with Qnil => true | _ => false end.

(** [rb_obj_is_kind_of(v, rb_cRuggedBranch)]. *)
Definition is_kind_of_RuggedBranch (v : VALUE) : bool :=
  match v with RBranch _ _ => true | _ => false end.

(** [rb_funcall(v, rb_intern("canonical_name"), 0)] on a branch object. *)
Definition funcall_canonical_name (v : VALUE) : VALUE :=
  match v with RBranch _ cn => cn | _ => Qnil end.

(** [rb_intern] and [SYM2ID]: an ID is the interned name. *)
Definition rb_intern (name : string) : string := name.
Definition SYM2ID (v : VALUE) : string :=
  match v with RSymbol id => id | _ => "" end.
Definition CSTR2SYM (name : string) : VALUE := RSymbol name.

(** Exceptions of the host runtime.  [RuggedError errorcode] is the Rugged
    exception raised for a failed engine call that returned [errorcode];
    [InvalidTarget] is the failure of target resolution (spec, section 4.3). *)
Inductive exception :=
| TypeError (msg : string)
| ArgumentError (msg : string)
| RuggedError (errorcode : Z)
| InvalidTarget
| RuntimeError (msg : string).

(** The names the host prints in a [Check_Type] failure: the class of the
    value it got and the type it expected. *)
Definition class_name (v : VALUE) : string :=
  match v with
  | Qnil => "nil" | Qtrue => "true" | Qfalse => "false"
  | RString _ => "String" | RSymbol _ => "Symbol" | RFixnum _ => "Fixnum"
  | RBranch _ _ => "Rugged::Branch" | REnumerator _ _ => "Enumerator"
  | RObject c => c
  end.

Definition type_name (t : ruby_value_type) : string :=
  match t with
  | T_NIL => "nil" | T_TRUE => "true" | T_FALSE => "false"
  | T_STRING => "String" | T_SYMBOL => "Symbol" | T_FIXNUM => "Fixnum"
  | T_DATA => "Data" | T_OBJECT => "Object"
  end.

Definition wrong_argument_type (v : VALUE) (expected : ruby_value_type) : exception :=
  TypeError ("wrong argument type " ++ class_name v
             ++ " (expected " ++ type_name expected ++ ")").

(** ** Control: state, exceptions, and the trace of engine calls *)

(** Calls that leave the binding: into the engine, or into the consumer's
    block. *)
Inductive call :=
| reference_lookup_call (name : string)
| branch_lookup_call (name : string) (type : git_branch_t)
| object_get_call (target : VALUE)
| branch_create_call (name : string) (target : git_commit) (force : Z)
| branch_delete_call (ref : git_reference)
| branch_move_call (ref : git_reference) (new_name : string) (force : Z)
| iterator_new_call (filter : git_branch_t)
| branch_next_call
| iterator_free_call
| yield_call (v : VALUE).

(** How a C function of the file ends: it returns, it leaves through
    [rb_raise]/[rb_jump_tag], or it reads an uninitialised out-parameter. *)
Inductive outcome (A : Type) :=
| Return (a : A)
| Raise (e : exception)
| Undefined.
Arguments Return {A} a.
Arguments Raise {A} e.
Arguments Undefined {A}.

Section Binding.

(** The repository: the engine's state behind the collection's owner. *)
Context {git_repository : Type}.

Record world := mk_world {
  repo : git_repository;
  calls : list call;
  live_iterators : nat
}.

Definition M (A : Type) : Type := world -> outcome A * world.

Definition ret {A} (a : A) : M A := fun w => (Return a, w).

Definition bind {A B} (m : M A) (k : A -> M B) : M B :=
  fun w =>
    match m w with
    | (Return a, w') => k a w'
    | (Raise e, w') => (Raise e, w')
    | (Undefined, w') => (Undefined, w')
    end.

(** [rb_raise]. *)
Definition rb_raise {A} (e : exception) : M A := fun w => (Raise e, w).

Definition undefined {A} : M A := fun w => (Undefined, w).

Definition log (c : call) : M unit :=
  fun w => (Return tt, mk_world (repo w) (calls w ++ [c]) (live_iterators w)).

End Binding.

Arguments world : clear implicits.
Arguments M : clear implicits.

Declare Scope binding_scope.
Delimit Scope binding_scope with binding.
Notation "x <- c1 ;; c2" := (bind c1 (fun x => c2))
  (at level 100, c1 at next level, right associativity) : binding_scope.
Notation "c1 ;; c2" := (bind c1 (fun _ => c2))
  (at level 100, right associativity) : binding_scope.
Local Open Scope binding_scope.

(** The engine and the other collaborators the file calls but does not
    define: libgit2's reference and branch functions, and Rugged's
    [rugged_object_get(repo, v, GIT_OBJ_COMMIT)]. *)
Class Engine (git_repository : Type) := {
  engine_reference_lookup : git_repository -> string -> git_result git_reference;
  engine_branch_lookup :
    git_repository -> string -> git_branch_t -> git_result git_reference;
  engine_object_get : git_repository -> VALUE -> exception + git_commit;
  engine_branch_create :
    git_repository -> string -> git_commit -> Z ->
    git_result git_reference * git_repository;
  engine_branch_delete :
    git_repository -> git_reference -> git_result unit * git_repository;
  engine_branch_move :
    git_repository -> git_reference -> string -> Z ->
    git_result git_reference * git_repository;
  engine_branch_iterator_new :
    git_repository -> git_branch_t -> git_result git_branch_iterator
}.

(** ** The functions of rugged_branch_collection.c

    The collection's owner is the repository whose state the world carries,
    so [rugged_owner], [rugged_check_repo] and [Data_Get_Struct] succeed and
    leave no trace.  Releasing a reference or a commit ([git_reference_free],
    [git_commit_free], [xfree]) after a call whose success has been checked
    is not recorded; creating and releasing the store's cursor is.  The one
    release that precedes the test of the error code (line 350) reads an
    out-parameter that may be unset, and is written out. *)

Section Collection.

Context {git_repository : Type} `{Engine git_repository}.

#[local] Abbreviation M := (M git_repository).

(** *** Calls into the engine, each recorded in the trace *)

Definition query {A} (c : call) (f : git_repository -> A) : M A :=
  log c;; (fun w => (Return (f (repo w)), w)).

Definition update {A} (c : call) (f : git_repository -> A * git_repository) : M A :=
  log c;;
  (fun w => let '(a, r) := f (repo w) in
            (Return a, mk_world r (calls w) (live_iterators w))).

Definition git_reference_lookup (name : string) : M (git_result git_reference) :=
  query (reference_lookup_call name) (fun r => engine_reference_lookup r name).

Definition git_branch_lookup (branch_name : string) (branch_type : git_branch_t)
  : M (git_result git_reference) :=
  query (branch_lookup_call branch_name branch_type)
        (fun r => engine_branch_lookup r branch_name branch_type).

Definition git_branch_create (branch_name : string) (target : git_commit) (force : Z)
  : M (git_result git_reference) :=
  update (branch_create_call branch_name target force)
         (fun r => engine_branch_create r branch_name target force).

Definition git_branch_delete (branch : git_reference) : M (git_result unit) :=
  update (branch_delete_call branch) (fun r => engine_branch_delete r branch).

Definition git_branch_move (branch : git_reference) (new_branch_name : string) (force : Z)
  : M (git_result git_reference) :=
  update (branch_move_call branch new_branch_name force)
         (fun r => engine_branch_move r branch new_branch_name force).

(** A cursor that was created is live until it is freed. *)
Definition git_branch_iterator_new (filter : git_branch_t)
  : M (git_result git_branch_iterator) :=
  r <- query (iterator_new_call filter) (fun r => engine_branch_iterator_new r filter);;
  match r with
  | Git_ok _ => fun w => (Return r, mk_world (repo w) (calls w) (S (live_iterators w)))
  | Git_err _ => ret r
  end.

Definition git_branch_iterator_free : M unit :=
  log iterator_free_call;;
  (fun w => (Return tt, mk_world (repo w) (calls w) (Nat.pred (live_iterators w)))).

Definition git_branch_next (iter : git_branch_iterator)
  : M (git_result (git_reference * git_branch_t) * git_branch_iterator) :=
  log branch_next_call;; ret (git_branch_next_step iter).

(** [git_branch_iterator_new] (line 202).  Its return code is overwritten by
    the loop's first [git_branch_next] without having been read; after a
    failed creation [iter] is uninitialised. *)
Definition iterator_out (r : git_result git_branch_iterator) : M git_branch_iterator :=
  match r with
  | Git_ok iter => ret iter
  | Git_err _ => undefined
  end.

(** *** Host runtime and Rugged helpers the file uses *)

(** [Check_Type(v, t)]. *)
Definition Check_Type (v : VALUE) (t : ruby_value_type) : M unit :=
  if decide (TYPE v = t) then ret tt else rb_raise (wrong_argument_type v t).

(** [StringValueCStr(v)]: the C string of a host string; a string with an
    inner NUL byte is refused. *)
Definition StringValueCStr (v : VALUE) : M string :=
  match v with
  | RString s =>
    if CString.has_nul s then rb_raise (ArgumentError "string contains null byte")
    else ret s
  | _ => rb_raise (wrong_argument_type v T_STRING)
  end.

(** [rb_scan_args(argc, argv, "21", ...)]: two required arguments and one
    optional one, [Qnil] when absent. *)
Definition rb_scan_args_21 (argv : list VALUE) : M (VALUE * VALUE * VALUE) :=
  match argv with
  | [a; b] => ret (a, b, Qnil)
  | [a; b; c] => ret (a, b, c)
  | _ => rb_raise (ArgumentError "wrong number of arguments")
  end.

(** [rb_scan_args(argc, argv, "01", ...)]. *)
Definition rb_scan_args_01 (argv : list VALUE) : M VALUE :=
  match argv with
  | [] => ret Qnil
  | [a] => ret a
  | _ => rb_raise (ArgumentError "wrong number of arguments")
  end.

(** [rb_protect(rb_yield, v, &exception)]: runs the consumer's block; the
    state is non-zero exactly when the block left through an exception,
    which stays pending. *)
Definition rb_protect_yield (block : VALUE -> option exception) (v : VALUE)
  : M (option exception) :=
  log (yield_call v);; ret (block v).

(** [rb_funcall(self, rb_intern("to_enum"), 2, symbol, rb_filter)]. *)
Definition to_enum (symbol rb_filter : VALUE) : VALUE := REnumerator symbol rb_filter.

Definition rb_str_new_utf8 (s : string) : VALUE := RString s.

(** Modelled from the spec: [rugged_exception_check] is defined in rugged.h,
    not under src/.  Section 6: a fallible call raises a typed error to the
    host on failure; the engine reports failure by a negative return code. *)
Definition rugged_exception_check (errorcode : Z) : M unit :=
  if errorcode <? 0 then rb_raise (RuggedError errorcode) else ret tt.

(** Modelled from the spec: [rugged_parse_bool] is defined in rugged.h, not
    under src/.  Section 4.3: force is a boolean flag. *)
Definition rugged_parse_bool (boolean : VALUE) : M Z :=
  match boolean with
  | Qtrue => ret 1
  | Qfalse => ret 0
  | _ => rb_raise (TypeError "Expected boolean value")
  end.

(** [rugged_object_get(repo, v, GIT_OBJ_COMMIT)]: returns the commit or
    raises. *)
Definition rugged_object_get (rb_target : VALUE) : M git_commit :=
  log (object_get_call rb_target);;
  (fun w => match engine_object_get (repo w) rb_target with
            | inl e => (Raise e, w)
            | inr c => (Return c, w)
            end).

(** Modelled from the spec: [rugged_ref_new] and [Rugged::Reference
    #canonical_name] are defined in rugged_reference.c, not under src/.
    Section 9: a branch handle is normalised to its qualified name. *)
Definition rugged_ref_new (ref : git_reference) : VALUE :=
  RBranch ref (RString (reference_name ref)).

(** *** rugged_branch_new (line 33) *)
Definition rugged_branch_new (ref : git_reference) : VALUE := rugged_ref_new ref.

(** *** rugged_branch_lookup (line 38) *)
Definition rugged_branch_lookup (rb_name_or_branch : VALUE)
  : M (git_result git_reference) :=
  if is_kind_of_RuggedBranch rb_name_or_branch then
    let rb_name_or_branch := funcall_canonical_name rb_name_or_branch in
    if negb (bool_decide (TYPE rb_name_or_branch = T_STRING)) then
      rb_raise (TypeError "Expected #canonical_name to return a String")
    else
      name <- StringValueCStr rb_name_or_branch;;
      git_reference_lookup name
  else if bool_decide (TYPE rb_name_or_branch = T_STRING) then
    branch_name <- StringValueCStr rb_name_or_branch;;
    if (CString.strncmp branch_name "refs/heads/" (CString.strlen "refs/heads/") =? 0)
       || (CString.strncmp branch_name "refs/remotes/" (CString.strlen "refs/remotes/") =? 0)
       || (CString.strcmp branch_name "HEAD" =? 0)
    then git_reference_lookup branch_name
    else
      r <- git_branch_lookup branch_name GIT_BRANCH_LOCAL;;
      if (error_of r =? GIT_OK) || negb (error_of r =? git_errno GIT_ENOTFOUND)
      then ret r
      else
        r <- git_branch_lookup branch_name GIT_BRANCH_REMOTE;;
        if (error_of r =? GIT_OK) || negb (error_of r =? git_errno GIT_ENOTFOUND)
        then ret r
        else
          let ref_name := CString.strcat "refs/" branch_name in
          git_reference_lookup ref_name
  else
    rb_raise (TypeError "Expecting a String or Rugged::Branch instance").

(** *** parse_branch_type (line 87) *)
Definition parse_branch_type (rb_filter : VALUE) : M git_branch_t :=
  Check_Type rb_filter T_SYMBOL;;
  let id_filter := SYM2ID rb_filter in
  if String.eqb id_filter (rb_intern "local") then ret GIT_BRANCH_LOCAL
  else if String.eqb id_filter (rb_intern "remote") then ret GIT_BRANCH_REMOTE
  else rb_raise (TypeError "Invalid branch filter. Expected `:remote`, `:local` or `nil`").

(** The branch a successful call left in its out-parameter; after a failed
    call the out-parameter is uninitialised. *)
Definition out_param {A} (r : git_result A) : M A :=
  match r with
  | Git_ok a => ret a
  | Git_err _ => undefined
  end.

(** *** rb_git_branch_collection_create (line 120) *)
Definition rb_git_branch_collection_create (argv : list VALUE) : M VALUE :=
  args <- rb_scan_args_21 argv;;
  let '(rb_name, rb_target, rb_force) := args in
  Check_Type rb_name T_STRING;;
  Check_Type rb_target T_STRING;;
  force <- (if negb (NIL_P rb_force) then rugged_parse_bool rb_force else ret 0);;
  target <- rugged_object_get rb_target;;
  name <- StringValueCStr rb_name;;
  r <- git_branch_create name target force;;
  rugged_exception_check (error_of r);;
  branch <- out_param r;;
  ret (rugged_branch_new branch).

(** *** rb_git_branch_collection_aref (line 160) *)
Definition rb_git_branch_collection_aref (rb_name : VALUE) : M VALUE :=
  Check_Type rb_name T_STRING;;
  r <- rugged_branch_lookup rb_name;;
  if error_of r =? git_errno GIT_ENOTFOUND then ret Qnil
  else
    rugged_exception_check (error_of r);;
    branch <- out_param r;;
    ret (rugged_branch_new branch).

(** *** each_branch (line 180) *)

(** The loop of lines 206 and 211,
    [while (!exception && (error = git_branch_next(...)) == GIT_OK)
       rb_protect(rb_yield, project(branch), &exception);]
    by recursion on what the cursor still holds; it returns the last [error]
    and the pending [exception]. *)
Fixpoint while_branch_next (project : git_reference -> VALUE)
    (block : VALUE -> option exception)
    (rest : list (git_reference * git_branch_t)) (fin : git_error_code)
  : M (Z * option exception) :=
  step <- git_branch_next (mk_iterator rest fin);;
  match rest with
  | [] => ret (error_of (fst step), None)
  | _ :: rest' =>
    match fst step with
    | Git_err e => ret (git_errno e, None) (* not reached: the cursor holds a branch *)
    | Git_ok (branch, _) =>
      exception <- rb_protect_yield block (project branch);;
      match exception with
      | Some _ => ret (GIT_OK, exception)
      | None => while_branch_next project block rest' fin
      end
    end
  end.

(** Lines 200-224: the iteration proper, once the filter is known. *)
Definition each_branch_iterate (filter : git_branch_t)
    (block : VALUE -> option exception) (branch_names_only : bool) : M VALUE :=
  created <- git_branch_iterator_new filter;;
  iter <- iterator_out created;;
  looped <- (if branch_names_only
             then while_branch_next
                    (fun branch => rb_str_new_utf8 (git_reference_shorthand branch))
                    block (pending iter) (final iter)
             else while_branch_next rugged_branch_new block (pending iter) (final iter));;
  let '(error, exception) := looped in
  git_branch_iterator_free;;
  match exception with
  | Some e => rb_raise e
  | None =>
    (if negb (error =? git_errno GIT_ITEROVER) then rugged_exception_check error
     else ret tt);;
    ret Qnil
  end.

Definition each_branch (argv : list VALUE) (block : option (VALUE -> option exception))
    (branch_names_only : bool) : M VALUE :=
  rb_filter <- rb_scan_args_01 argv;;
  match block with
  | None =>
    let symbol := if branch_names_only then CSTR2SYM "each_name" else CSTR2SYM "each" in
    ret (to_enum symbol rb_filter)
  | Some block =>
    filter <- (if negb (NIL_P rb_filter) then parse_branch_type rb_filter
               else ret (Z.lor GIT_BRANCH_LOCAL GIT_BRANCH_REMOTE));;
    each_branch_iterate filter block branch_names_only
  end.

(** *** rb_git_branch_collection_each (line 239) and _each_name (line 255) *)
Definition rb_git_branch_collection_each (argv : list VALUE)
    (block : option (VALUE -> option exception)) : M VALUE :=
  each_branch argv block false.

Definition rb_git_branch_collection_each_name (argv : list VALUE)
    (block : option (VALUE -> option exception)) : M VALUE :=
  each_branch argv block true.

(** *** rb_git_branch_collection_delete (line 268) *)
Definition rb_git_branch_collection_delete (rb_name_or_branch : VALUE) : M VALUE :=
  r <- rugged_branch_lookup rb_name_or_branch;;
  rugged_exception_check (error_of r);;
  branch <- out_param r;;
  r <- git_branch_delete branch;;
  rugged_exception_check (error_of r);;
  ret Qnil.

(** *** rb_git_branch_collection_move (line 306) *)
Definition rb_git_branch_collection_move (argv : list VALUE) : M VALUE :=
  args <- rb_scan_args_21 argv;;
  let '(rb_name_or_branch, rb_new_branch_name, rb_force) := args in
  Check_Type rb_new_branch_name T_STRING;;
  r <- rugged_branch_lookup rb_name_or_branch;;
  rugged_exception_check (error_of r);;
  old_branch <- out_param r;;
  force <- (if negb (NIL_P rb_force) then rugged_parse_bool rb_force else ret 0);;
  new_branch_name <- StringValueCStr rb_new_branch_name;;
  r <- git_branch_move old_branch new_branch_name force;;
  rugged_exception_check (error_of r);;
  new_branch <- out_param r;;
  ret (rugged_branch_new new_branch).

(** *** rb_git_branch_collection_exist_p (line 339)

    [branch] is declared without a value (line 343) and is released at line
    350, after the resolution and before [error] is tested: the release reads
    whatever the resolution left in it.  Unlike the other entry points,
    exist? does not call [rugged_check_repo] (lines 346-347); the owner here
    is a repository, on which that check passes wherever it is made. *)
Definition git_reference_free (r : git_result git_reference) : M unit :=
  branch <- out_param r;;
  ret tt.

Definition rb_git_branch_collection_exist_p (rb_name : VALUE) : M VALUE :=
  Check_Type rb_name T_STRING;;
  r <- rugged_branch_lookup rb_name;;
  git_reference_free r;;
  if error_of r =? git_errno GIT_ENOTFOUND then ret Qfalse
  else
    rugged_exception_check (error_of r);;
    ret Qtrue.

End Collection.

(** ** A reference store for the engine *)

Module RefStore.

(** Modelled from the spec: the engine (libgit2) and the object lookup
    [rugged_object_get] are not under src/.  Section 3 and 4.1: the
    Reference Store is a durable mapping from reference name to target, names
    unique; an IOError is a durable-storage failure, kept here as the set of
    names whose storage cannot be read or written.  Section 6: commits are
    resolved against the object store. *)
Record refdb := mk_refdb {
  refs : gmap string git_target;
  commits : gset string;
  unreadable : gset string
}.

Definition with_refs (db : refdb) (m : gmap string git_target) : refdb :=
  mk_refdb m (commits db) (unreadable db).

(** Modelled from the spec: section 4.1, [lookup(name) -> Reference | NotFound]. *)
Definition refGet (db : refdb) (name : string) : git_result git_reference :=
  if decide (name ∈ unreadable db) then Git_err GIT_ERROR
  else match refs db !! name with
       | Some t => Git_ok (mk_reference name t)
       | None => Git_err GIT_ENOTFOUND
       end.

(** Modelled from the spec: section 4.1, [create(name, target, force)] fails
    with AlreadyExists unless [force], which overwrites. *)
Definition refCreate (db : refdb) (name : string) (target : git_target) (force : Z)
  : git_result git_reference * refdb :=
  if decide (name ∈ unreadable db) then (Git_err GIT_ERROR, db)
  else match refs db !! name with
       | Some _ =>
         if force =? 0 then (Git_err GIT_EEXISTS, db)
         else (Git_ok (mk_reference name target), with_refs db (<[name := target]> (refs db)))
       | None =>
         (Git_ok (mk_reference name target), with_refs db (<[name := target]> (refs db)))
       end.

(** Modelled from the spec: section 4.1, [delete(reference)]. *)
Definition refDelete (db : refdb) (r : git_reference) : git_result unit * refdb :=
  if decide (reference_name r ∈ unreadable db) then (Git_err GIT_ERROR, db)
  else match refs db !! reference_name r with
       | Some _ => (Git_ok tt, with_refs db (delete (reference_name r) (refs db)))
       | None => (Git_err GIT_ENOTFOUND, db)
       end.

(** Modelled from the spec: sections 3 and 4.3, rename is a name change with
    the same target; force controls overwrite of an existing reference at the
    destination; it fails with AlreadyExists unless force. *)
Definition refRename (db : refdb) (r : git_reference) (new_name : string) (force : Z)
  : git_result git_reference * refdb :=
  if decide (reference_name r ∈ unreadable db) then (Git_err GIT_ERROR, db)
  else if decide (new_name ∈ unreadable db) then (Git_err GIT_ERROR, db)
  else match refs db !! reference_name r with
       | None => (Git_err GIT_ENOTFOUND, db)
       | Some t =>
         let moved := with_refs db (<[new_name := t]> (delete (reference_name r) (refs db))) in
         match refs db !! new_name with
         | Some _ =>
           if force =? 0 then (Git_err GIT_EEXISTS, db)
           else (Git_ok (mk_reference new_name t), moved)
         | None => (Git_ok (mk_reference new_name t), moved)
         end
       end.

(** Modelled from the spec: section 3, a Branch is a Reference whose name is
    prefixed refs/heads/ (local) or refs/remotes/ (remote). *)
Definition branch_type_of (name : string) : option git_branch_t :=
  if String.prefix "refs/heads/" name then Some GIT_BRANCH_LOCAL
  else if String.prefix "refs/remotes/" name then Some GIT_BRANCH_REMOTE
  else None.

(** Modelled from the spec: section 4.1, [iterate(filter)] with filter in
    {Local, Remote, Local|Remote}, in store-native order; section 4.4, the
    cursor ends Exhausted, or Failed where the store cannot be read. *)
Fixpoint scan_branches (db : refdb) (filter : git_branch_t)
    (entries : list (string * git_target))
  : list (git_reference * git_branch_t) * git_error_code :=
  match entries with
  | [] => ([], GIT_ITEROVER)
  | (name, t) :: entries' =>
    if decide (name ∈ unreadable db) then ([], GIT_ERROR)
    else
      let '(found, fin) := scan_branches db filter entries' in
      match branch_type_of name with
      | Some bt =>
        if Z.land filter bt =? 0 then (found, fin)
        else ((mk_reference name t, bt) :: found, fin)
      | None => (found, fin)
      end
  end.

Definition refIterator (db : refdb) (filter : git_branch_t)
  : git_result git_branch_iterator :=
  let '(found, fin) := scan_branches db filter (map_to_list (refs db)) in
  Git_ok (mk_iterator found fin).

(** Modelled from the spec: section 4.3, the target must resolve to an
    existing commit, else the call fails with InvalidTarget. *)
Definition resolveCommit (db : refdb) (rb_target : VALUE) : exception + git_commit :=
  match rb_target with
  | RString rev => if decide (rev ∈ commits db) then inr rev else inl InvalidTarget
  | _ => inl InvalidTarget
  end.

(** Modelled from the spec: section 4.2 steps 2 and 3 ([git_branch_lookup]),
    section 4.3 ([git_branch_create] writes refs/heads/<name>,
    [git_branch_move] renames to refs/heads/<new_name>). *)
#[global] Instance refdb_engine : Engine refdb := {
  engine_reference_lookup := refGet;
  engine_branch_lookup db name type :=
    if type =? GIT_BRANCH_REMOTE then refGet db ("refs/remotes/" ++ name)
    else refGet db ("refs/heads/" ++ name);
  engine_object_get := resolveCommit;
  engine_branch_create db name target force :=
    refCreate db ("refs/heads/" ++ name) (Direct target) force;
  engine_branch_delete := refDelete;
  engine_branch_move db r new_name force :=
    refRename db r ("refs/heads/" ++ new_name) force;
  engine_branch_iterator_new := refIterator
}.

(** A session on a store: no call made yet, no cursor open. *)
Definition session (db : refdb) : world refdb := mk_world db [] 0%nat.

End RefStore.


(** ** Sample repositories *)

Module Samples.
Import RefStore.

(** A local and a remote branch named x, a remote branch origin/y, a tag. *)
Definition db_xy : refdb := mk_refdb
  {[ "refs/heads/x" := Direct "c1";
     "refs/remotes/x" := Direct "c2";
     "refs/remotes/origin/y" := Direct "c2";
     "refs/tags/v1" := Direct "c1" ]}
  {[ "c1"; "c2" ]}
  ∅.

(** The same store with the remote reference of x on failing storage and no
    local x. *)
Definition db_faulty : refdb := mk_refdb
  {[ "refs/remotes/x" := Direct "c2";
     "refs/remotes/origin/y" := Direct "c2" ]}
  {[ "c1"; "c2" ]}
  {[ "refs/remotes/x" ]}.

End Samples.

(** ** Vocabulary of the statements *)

(** The spec's wording of the resolver's first test (section 4.2, step 1):
    the input begins with refs/heads/ or refs/remotes/, or equals HEAD. *)
Definition carries_namespace (name : string) : bool :=
  String.prefix "refs/heads/" name
  || String.prefix "refs/remotes/" name
  || String.eqb name "HEAD".

(** A bare name is any other. *)
Definition bare_name (name : string) : Prop := carries_namespace name = false.

(** The world after further calls were recorded. *)
Definition logged {S} (w : world S) (cs : list call) : world S :=
  mk_world (repo w) (calls w ++ cs) (live_iterators w).

(** The calls recorded between two worlds of one run. *)
Definition new_calls {S} (w w' : world S) : list call :=
  drop (List.length (calls w)) (calls w').

(** What the loop of each_branch yields to the block, and the calls it makes:
    one [git_branch_next] per round, one [rb_yield] per branch, until the
    block leaves through an exception or the cursor has nothing left. *)
Fixpoint loop_calls (project : git_reference -> VALUE)
    (block : VALUE -> option exception)
    (rest : list (git_reference * git_branch_t)) : list call :=
  match rest with
  | [] => [branch_next_call]
  | (branch, _) :: rest' =>
    branch_next_call :: yield_call (project branch) ::
    match block (project branch) with
    | Some _ => []
    | None => loop_calls project block rest'
    end
  end.

(** The exception the block leaves through, if it does. *)
Fixpoint loop_exception (project : git_reference -> VALUE)
    (block : VALUE -> option exception)
    (rest : list (git_reference * git_branch_t)) : option exception :=
  match rest with
  | [] => None
  | (branch, _) :: rest' =>
    match block (project branch) with
    | Some x => Some x
    | None => loop_exception project block rest'
    end
  end.

(** The engine reported NotFound: [error == GIT_ENOTFOUND]. *)
Definition is_notfound {A} (r : git_result A) : bool :=
  error_of r =? git_errno GIT_ENOTFOUND.

(** The calls that only read the reference store, and those that write it. *)
Definition is_lookup_call (c : call) : bool :=
  match c with
  | reference_lookup_call _ | branch_lookup_call _ _ => true
  | _ => false
  end.

Definition is_write_call (c : call) : bool :=
  match c with
  | branch_create_call _ _ _ | branch_delete_call _ | branch_move_call _ _ _ => true
  | _ => false
  end.

(** The calls an iteration makes. *)
Definition is_iteration_call (c : call) : bool :=
  match c with
  | iterator_new_call _ | branch_next_call | iterator_free_call | yield_call _ => true
  | _ => false
  end.

(** The values handed to the block, in the order of the trace. *)
Fixpoint yielded (cs : list call) : list VALUE :=
  match cs with
  | [] => []
  | yield_call v :: cs' => v :: yielded cs'
  | _ :: cs' => yielded cs'
  end.

(** What a round of each or each_name hands to the block for a branch
    (lines 207 and 212). *)
Definition projection (branch_names_only : bool) : git_reference -> VALUE :=
  if branch_names_only
  then fun branch => rb_str_new_utf8 (git_reference_shorthand branch)
  else rugged_branch_new.

(** The [int force] the mutating entry points compute from their optional
    argument (lines 136-137 and 322-323): absent or nil leaves 0; a value
    that is neither true nor false is refused by [rugged_parse_bool]. *)
Definition parsed_force (rb_force : VALUE) : option Z :=
  match rb_force with
  | Qnil => Some 0
  | Qfalse => Some 0
  | Qtrue => Some 1
  | _ => None
  end.

(** The filter each and each_name accept from their argument list (lines
    188, 197-198 and 94-97): none or nil for both types, :local, :remote. *)
Definition accepted_filter (argv : list VALUE) : option git_branch_t :=
  match argv with
  | [] => Some (Z.lor GIT_BRANCH_LOCAL GIT_BRANCH_REMOTE)
  | [Qnil] => Some (Z.lor GIT_BRANCH_LOCAL GIT_BRANCH_REMOTE)
  | [RSymbol id] =>
    if String.eqb id "local" then Some GIT_BRANCH_LOCAL
    else if String.eqb id "remote" then Some GIT_BRANCH_REMOTE
    else None
  | _ => None
  end.

(** What an entry point makes of the result of its last engine call: the
    value on success, the Rugged exception of the error code otherwise. *)
Definition engine_outcome {A} (r : git_result A) (value : A -> VALUE) : outcome VALUE :=
  match r with
  | Git_ok a => Return (value a)
  | Git_err e => Raise (RuggedError (git_errno e))
  end.

(** * Properties *)

(** ** C strings against the spec's words *)

Lemma char_code_diff (c1 c2 : ascii) :
  Ascii.eqb c1 c2 = false -> CString.char_code c1 - CString.char_code c2 <> 0.
Proof.
  intros Hne Heq. apply Ascii.eqb_neq in Hne. apply Hne.
  unfold CString.char_code in Heq.
  assert (nat_of_ascii c1 = nat_of_ascii c2) as Hn by lia.
  rewrite <- (ascii_nat_embedding c1), <- (ascii_nat_embedding c2). now rewrite Hn.
Qed.

Lemma char_code_nul (c : ascii) :
  Ascii.eqb c Ascii.zero = false -> CString.char_code c <> 0.
Proof.
  intros Hne Heq. apply (char_code_diff _ _ Hne).
  rewrite Heq. reflexivity.
Qed.

(** [strncmp(s, p, strlen(p)) == 0] is the prefix test, for a NUL-free [p]. *)
Lemma strncmp_prefix (p s : string) :
  CString.has_nul p = false ->
  (CString.strncmp s p (CString.strlen p) =? 0) = String.prefix p s.
Proof.
  revert s. induction p as [|c p IH]; intros s Hp.
  - destruct s; reflexivity.
  - simpl in Hp. destruct (Ascii.eqb c Ascii.zero) eqn:Hc; [discriminate|].
    destruct s as [|d s]; simpl.
    + apply Z.eqb_neq. pose proof (char_code_nul c Hc). lia.
    + rewrite Ascii.eqb_sym. destruct (Ascii.eqb c d) eqn:Hcd.
      * apply Ascii.eqb_eq in Hcd. subst d.
        destruct (ascii_dec c c) as [_|Hn]; [|congruence]. now apply IH.
      * destruct (ascii_dec c d) as [->|_].
        { rewrite Ascii.eqb_refl in Hcd. discriminate. }
        apply Z.eqb_neq. apply char_code_diff. now rewrite Ascii.eqb_sym.
Qed.

(** [strcmp(s1, s2) == 0] is equality, for NUL-free strings. *)
Lemma strcmp_eqb (s1 s2 : string) :
  CString.has_nul s1 = false -> CString.has_nul s2 = false ->
  (CString.strcmp s1 s2 =? 0) = String.eqb s1 s2.
Proof.
  revert s2. induction s1 as [|c s1 IH]; intros [|d s2] H1 H2; simpl in *.
  - reflexivity.
  - destruct (Ascii.eqb d Ascii.zero) eqn:Hd; [discriminate|].
    apply Z.eqb_neq. pose proof (char_code_nul d Hd). lia.
  - destruct (Ascii.eqb c Ascii.zero) eqn:Hc; [discriminate|].
    apply Z.eqb_neq. now apply char_code_nul.
  - destruct (Ascii.eqb c Ascii.zero) eqn:Hc; [discriminate|].
    destruct (Ascii.eqb d Ascii.zero) eqn:Hd; [discriminate|].
    destruct (Ascii.eqb c d) eqn:Hcd.
    + now apply IH.
    + apply Z.eqb_neq. now apply char_code_diff.
Qed.

(** The C test of lines 51-53 is the spec's test. *)
Lemma namespace_test (name : string) :
  CString.has_nul name = false ->
  (CString.strncmp name "refs/heads/" (CString.strlen "refs/heads/") =? 0)
  || (CString.strncmp name "refs/remotes/" (CString.strlen "refs/remotes/") =? 0)
  || (CString.strcmp name "HEAD" =? 0)
  = carries_namespace name.
Proof.
  intros Hn. unfold carries_namespace.
  rewrite !strncmp_prefix by reflexivity.
  rewrite strcmp_eqb by (assumption || reflexivity). reflexivity.
Qed.

(** Every error code of the engine is a negative [int], and different codes
    are different [int]s. *)
Lemma git_errno_negative (e : git_error_code) : git_errno e < 0.
Proof. destruct e; reflexivity. Qed.

Lemma git_errno_inj (e1 e2 : git_error_code) : git_errno e1 = git_errno e2 -> e1 = e2.
Proof. destruct e1, e2; simpl; intros Heq; try reflexivity; discriminate Heq. Qed.

(** ** Running the engine calls *)

Section Resolver.

Context {S : Type} {E : Engine S}.

Lemma logged_logged (w : world S) (a b : list call) :
  logged (logged w a) b = logged w (a ++ b).
Proof. unfold logged; simpl. now rewrite <- app_assoc. Qed.

Lemma repo_logged (w : world S) (cs : list call) : repo (logged w cs) = repo w.
Proof. reflexivity. Qed.

Lemma git_reference_lookup_run (name : string) (w : world S) :
  git_reference_lookup name w
  = (Return (engine_reference_lookup (repo w) name),
     logged w [reference_lookup_call name]).
Proof. reflexivity. Qed.

Lemma git_branch_lookup_run (name : string) (t : git_branch_t) (w : world S) :
  git_branch_lookup name t w
  = (Return (engine_branch_lookup (repo w) name t),
     logged w [branch_lookup_call name t]).
Proof. reflexivity. Qed.

Lemma is_notfound_spec {A} (r : git_result A) :
  is_notfound r = true <-> r = Git_err GIT_ENOTFOUND.
Proof.
  unfold is_notfound. destruct r as [a|e]; simpl.
  - split; discriminate.
  - rewrite Z.eqb_eq. split.
    + intros He. f_equal. now apply git_errno_inj.
    + now intros [= ->].
Qed.

Lemma is_notfound_other {A} (r : git_result A) :
  r <> Git_err GIT_ENOTFOUND -> is_notfound r = false.
Proof.
  intros Hne. destruct (is_notfound r) eqn:Hn; [|reflexivity].
  apply is_notfound_spec in Hn. congruence.
Qed.

(** The test of lines 56-57 and 60-61 returns unless the code is NotFound. *)
Lemma returns_unless_notfound {A} (r : git_result A) :
  (error_of r =? GIT_OK) || negb (error_of r =? git_errno GIT_ENOTFOUND)
  = negb (is_notfound r).
Proof.
  unfold is_notfound. destruct r as [a|e]; [reflexivity|].
  simpl. pose proof (git_errno_negative e).
  destruct (git_errno e =? GIT_OK) eqn:Hz; [|reflexivity].
  apply Z.eqb_eq in Hz. unfold GIT_OK in Hz. lia.
Qed.

(** A name that carries its namespace is looked up verbatim, in one call. *)
Lemma rugged_branch_lookup_verbatim (name : string) (w : world S) :
  CString.has_nul name = false ->
  carries_namespace name = true ->
  rugged_branch_lookup (RString name) w
  = (Return (engine_reference_lookup (repo w) name),
     logged w [reference_lookup_call name]).
Proof.
  intros Hn Hq. unfold rugged_branch_lookup.
  cbn [is_kind_of_RuggedBranch TYPE]. rewrite bool_decide_eq_true_2 by reflexivity.
  unfold bind, StringValueCStr. rewrite Hn. unfold ret at 1.
  rewrite (namespace_test name Hn), Hq. reflexivity.
Qed.

(** A bare name goes through the chain local, remote, raw. *)
Lemma rugged_branch_lookup_chain (name : string) (w : world S) :
  CString.has_nul name = false ->
  bare_name name ->
  rugged_branch_lookup (RString name) w
  = let local := engine_branch_lookup (repo w) name GIT_BRANCH_LOCAL in
    let remote := engine_branch_lookup (repo w) name GIT_BRANCH_REMOTE in
    if negb (is_notfound local) then
      (Return local, logged w [branch_lookup_call name GIT_BRANCH_LOCAL])
    else if negb (is_notfound remote) then
      (Return remote, logged w [branch_lookup_call name GIT_BRANCH_LOCAL;
                                branch_lookup_call name GIT_BRANCH_REMOTE])
    else
      (Return (engine_reference_lookup (repo w) ("refs/" ++ name)),
       logged w [branch_lookup_call name GIT_BRANCH_LOCAL;
                 branch_lookup_call name GIT_BRANCH_REMOTE;
                 reference_lookup_call ("refs/" ++ name)]).
Proof.
  intros Hn Hq. unfold bare_name in Hq. unfold rugged_branch_lookup.
  cbn [is_kind_of_RuggedBranch TYPE]. rewrite bool_decide_eq_true_2 by reflexivity.
  unfold bind at 1, StringValueCStr. rewrite Hn. unfold ret at 1.
  rewrite (namespace_test name Hn), Hq.
  unfold bind at 1. rewrite git_branch_lookup_run, returns_unless_notfound.
  destruct (negb (is_notfound (engine_branch_lookup (repo w) name GIT_BRANCH_LOCAL)));
    [reflexivity|].
  unfold bind at 1.
  rewrite git_branch_lookup_run, returns_unless_notfound, repo_logged, logged_logged.
  destruct (negb (is_notfound (engine_branch_lookup (repo w) name GIT_BRANCH_REMOTE))).
  - reflexivity.
  - rewrite git_reference_lookup_run, logged_logged. reflexivity.
Qed.

Lemma new_calls_logged (w : world S) (cs : list call) : new_calls w (logged w cs) = cs.
Proof. unfold new_calls, logged; simpl. now rewrite drop_app_length. Qed.

(** The chain with the three answers of the engine named. *)
Lemma rugged_branch_lookup_cases (name : string) (w : world S) :
  CString.has_nul name = false ->
  bare_name name ->
  let local := engine_branch_lookup (repo w) name GIT_BRANCH_LOCAL in
  let remote := engine_branch_lookup (repo w) name GIT_BRANCH_REMOTE in
  let raw := engine_reference_lookup (repo w) ("refs/" ++ name) in
  let resolved := rugged_branch_lookup (RString name) w in
  (local <> Git_err GIT_ENOTFOUND ->
     resolved = (Return local, logged w [branch_lookup_call name GIT_BRANCH_LOCAL]))
  /\ (local = Git_err GIT_ENOTFOUND -> remote <> Git_err GIT_ENOTFOUND ->
     resolved = (Return remote, logged w [branch_lookup_call name GIT_BRANCH_LOCAL;
                                          branch_lookup_call name GIT_BRANCH_REMOTE]))
  /\ (local = Git_err GIT_ENOTFOUND -> remote = Git_err GIT_ENOTFOUND ->
     resolved = (Return raw, logged w [branch_lookup_call name GIT_BRANCH_LOCAL;
                                       branch_lookup_call name GIT_BRANCH_REMOTE;
                                       reference_lookup_call ("refs/" ++ name)])).
Proof.
  intros Hn Hq local remote raw resolved. subst resolved.
  rewrite (rugged_branch_lookup_chain name w Hn Hq). cbv zeta. fold local remote raw.
  repeat split.
  - intros Hl. now rewrite (is_notfound_other local Hl).
  - intros Hl Hr. rewrite (is_notfound_other remote Hr). now rewrite Hl.
  - intros Hl Hr. now rewrite Hl, Hr.
Qed.

(** C1: a bare name (no refs/heads/ or refs/remotes/ prefix, not HEAD) is
    resolved by trying refs/heads/<name>, then refs/remotes/<name>, then
    refs/<name>, and the first that exists is returned; when the local and
    the remote branch both exist the local one is returned.  A name that
    carries refs/heads/ or refs/remotes/, or is HEAD, is looked up verbatim in
    a single call, with no fallback.  The engine's branch lookup is taken by
    its contract: local is refs/heads/<name>, remote is refs/remotes/<name>. *)
Theorem resolution_precedence (w : world S) (name : string) :
  CString.has_nul name = false ->
  (forall n, engine_branch_lookup (repo w) n GIT_BRANCH_LOCAL
             = engine_reference_lookup (repo w) ("refs/heads/" ++ n)) ->
  (forall n, engine_branch_lookup (repo w) n GIT_BRANCH_REMOTE
             = engine_reference_lookup (repo w) ("refs/remotes/" ++ n)) ->
  let local := engine_reference_lookup (repo w) ("refs/heads/" ++ name) in
  let remote := engine_reference_lookup (repo w) ("refs/remotes/" ++ name) in
  let raw := engine_reference_lookup (repo w) ("refs/" ++ name) in
  let resolved := rugged_branch_lookup (RString name) w in
  (bare_name name ->
     (forall r, local = Git_ok r ->
        resolved = (Return (Git_ok r),
                    logged w [branch_lookup_call name GIT_BRANCH_LOCAL]))
     /\ (forall r, local = Git_err GIT_ENOTFOUND -> remote = Git_ok r ->
        resolved = (Return (Git_ok r),
                    logged w [branch_lookup_call name GIT_BRANCH_LOCAL;
                              branch_lookup_call name GIT_BRANCH_REMOTE]))
     /\ (local = Git_err GIT_ENOTFOUND -> remote = Git_err GIT_ENOTFOUND ->
        resolved = (Return raw,
                    logged w [branch_lookup_call name GIT_BRANCH_LOCAL;
                              branch_lookup_call name GIT_BRANCH_REMOTE;
                              reference_lookup_call ("refs/" ++ name)]))
     /\ (forall rl rr, local = Git_ok rl -> remote = Git_ok rr ->
        fst resolved = Return (Git_ok rl)))
  /\ (carries_namespace name = true ->
      resolved = (Return (engine_reference_lookup (repo w) name),
                  logged w [reference_lookup_call name])).
Proof.
  intros Hn Hlocal Hremote local remote raw resolved. split.
  - intros Hq.
    destruct (rugged_branch_lookup_cases name w Hn Hq) as (H1 & H2 & H3).
    rewrite Hlocal in H1, H2, H3. rewrite Hremote in H2, H3.
    fold local remote raw resolved in H1, H2, H3.
    repeat split.
    + intros r Hr. rewrite H1 by congruence. now rewrite Hr.
    + intros r Hl Hr. rewrite H2 by congruence. now rewrite Hr.
    + exact H3.
    + intros rl rr Hl _. rewrite H1 by congruence. now rewrite Hl.
  - intros Hq. now apply rugged_branch_lookup_verbatim.
Qed.

(** C2: during the resolution of a bare name, an error other than NotFound
    at the local, the remote or the raw step is returned at once, the trace
    ending with that step; the remote step is attempted only after the local
    one reported NotFound, and the raw step only after both did. *)
Theorem error_aborts_resolution (w : world S) (name : string) (e : git_error_code) :
  CString.has_nul name = false ->
  bare_name name ->
  e <> GIT_ENOTFOUND ->
  let local := engine_branch_lookup (repo w) name GIT_BRANCH_LOCAL in
  let remote := engine_branch_lookup (repo w) name GIT_BRANCH_REMOTE in
  let raw := engine_reference_lookup (repo w) ("refs/" ++ name) in
  let resolved := rugged_branch_lookup (RString name) w in
  (local = Git_err e ->
     resolved = (Return (Git_err e),
                 logged w [branch_lookup_call name GIT_BRANCH_LOCAL]))
  /\ (local = Git_err GIT_ENOTFOUND -> remote = Git_err e ->
     resolved = (Return (Git_err e),
                 logged w [branch_lookup_call name GIT_BRANCH_LOCAL;
                           branch_lookup_call name GIT_BRANCH_REMOTE]))
  /\ (local = Git_err GIT_ENOTFOUND -> remote = Git_err GIT_ENOTFOUND ->
     raw = Git_err e ->
     resolved = (Return (Git_err e),
                 logged w [branch_lookup_call name GIT_BRANCH_LOCAL;
                           branch_lookup_call name GIT_BRANCH_REMOTE;
                           reference_lookup_call ("refs/" ++ name)]))
  /\ (In (branch_lookup_call name GIT_BRANCH_REMOTE) (new_calls w (snd resolved))
      <-> local = Git_err GIT_ENOTFOUND)
  /\ (In (reference_lookup_call ("refs/" ++ name)) (new_calls w (snd resolved))
      <-> local = Git_err GIT_ENOTFOUND /\ remote = Git_err GIT_ENOTFOUND).
Proof.
  intros Hn Hq He local remote raw resolved.
  destruct (rugged_branch_lookup_cases name w Hn Hq) as (H1 & H2 & H3).
  fold local remote raw resolved in H1, H2, H3.
  assert (Hdec : forall r : git_result git_reference,
             r = Git_err GIT_ENOTFOUND \/ r <> Git_err GIT_ENOTFOUND).
  { intros r. destruct (is_notfound r) eqn:Hr.
    - left. now apply is_notfound_spec.
    - right. intros Heq. apply (proj2 (is_notfound_spec r)) in Heq. congruence. }
  assert (Hstep1 : local <> Git_err GIT_ENOTFOUND ->
             new_calls w (snd resolved) = [branch_lookup_call name GIT_BRANCH_LOCAL]).
  { intros Hl. rewrite (H1 Hl). apply new_calls_logged. }
  assert (Hstep2 : local = Git_err GIT_ENOTFOUND -> remote <> Git_err GIT_ENOTFOUND ->
             new_calls w (snd resolved) = [branch_lookup_call name GIT_BRANCH_LOCAL;
                                           branch_lookup_call name GIT_BRANCH_REMOTE]).
  { intros Hl Hr. rewrite (H2 Hl Hr). apply new_calls_logged. }
  assert (Hstep3 : local = Git_err GIT_ENOTFOUND -> remote = Git_err GIT_ENOTFOUND ->
             new_calls w (snd resolved) = [branch_lookup_call name GIT_BRANCH_LOCAL;
                                           branch_lookup_call name GIT_BRANCH_REMOTE;
                                           reference_lookup_call ("refs/" ++ name)]).
  { intros Hl Hr. rewrite (H3 Hl Hr). apply new_calls_logged. }
  split; [|split; [|split; [|split]]].
  - intros Hl. rewrite H1 by congruence. now rewrite Hl.
  - intros Hl Hr. rewrite H2 by congruence. now rewrite Hr.
  - intros Hl Hr Hraw. rewrite H3 by assumption. now rewrite Hraw.
  - split.
    + intros Hin. destruct (Hdec local) as [Hl|Hl]; [assumption|].
      rewrite (Hstep1 Hl) in Hin. destruct Hin as [Hin|[]]. discriminate Hin.
    + intros Hl. destruct (Hdec remote) as [Hr|Hr].
      * rewrite (Hstep3 Hl Hr). simpl. tauto.
      * rewrite (Hstep2 Hl Hr). simpl. tauto.
  - split.
    + intros Hin. destruct (Hdec local) as [Hl|Hl].
      * destruct (Hdec remote) as [Hr|Hr]; [now split|].
        rewrite (Hstep2 Hl Hr) in Hin.
        destruct Hin as [Hin|[Hin|[]]]; discriminate Hin.
      * rewrite (Hstep1 Hl) in Hin. destruct Hin as [Hin|[]]. discriminate Hin.
    + intros [Hl Hr]. rewrite (Hstep3 Hl Hr). simpl. tauto.
Qed.

End Resolver.

(** ** The entry points that resolve a name *)

Section EntryPoints.

Context {S : Type} {E : Engine S}.

Lemma bind_run {A B} (m : M S A) (k : A -> M S B) (w : world S) :
  bind m k w
  = match m w with
    | (Return a, w') => k a w'
    | (Raise e, w') => (Raise e, w')
    | (Undefined, w') => (Undefined, w')
    end.
Proof. reflexivity. Qed.

Lemma bind_ret {A B} (a : A) (k : A -> M S B) (w : world S) :
  bind (ret a) k w = k a w.
Proof. reflexivity. Qed.

Lemma bind_same {A B} (m1 m2 : M S A) (k : A -> M S B) (w : world S) :
  m1 w = m2 w -> bind m1 k w = bind m2 k w.
Proof. intros Heq. now rewrite !bind_run, Heq. Qed.

Lemma errno_other (e : git_error_code) :
  e <> GIT_ENOTFOUND -> (git_errno e =? git_errno GIT_ENOTFOUND) = false.
Proof. intros Hne. apply Z.eqb_neq. intros Heq. now apply git_errno_inj in Heq. Qed.

(** After a failed call the exception check raises, so the out-parameter is
    read only after a successful one. *)
Lemma rugged_exception_check_err (e : git_error_code) (w : world S) :
  rugged_exception_check (git_errno e) w = (Raise (RuggedError (git_errno e)), w).
Proof.
  unfold rugged_exception_check. pose proof (git_errno_negative e) as Hneg.
  apply Z.ltb_lt in Hneg. now rewrite Hneg.
Qed.

Lemma rugged_exception_check_ok (w : world S) :
  rugged_exception_check GIT_OK w = (Return tt, w).
Proof. reflexivity. Qed.

(** A branch handle is looked up by what [#canonical_name] returns, verbatim. *)
Lemma rugged_branch_lookup_handle (ref : git_reference) (n : string) (w : world S) :
  CString.has_nul n = false ->
  rugged_branch_lookup (RBranch ref (RString n)) w
  = (Return (engine_reference_lookup (repo w) n), logged w [reference_lookup_call n]).
Proof.
  intros Hn. unfold rugged_branch_lookup.
  cbn [is_kind_of_RuggedBranch funcall_canonical_name TYPE].
  rewrite bool_decide_eq_true_2 by reflexivity. cbn [negb].
  unfold bind, StringValueCStr. rewrite Hn. reflexivity.
Qed.

Lemma rugged_branch_lookup_other (v : VALUE) (w : world S) :
  is_kind_of_RuggedBranch v = false ->
  TYPE v <> T_STRING ->
  rugged_branch_lookup v w
  = (Raise (TypeError "Expecting a String or Rugged::Branch instance"), w).
Proof.
  intros Hk Ht. unfold rugged_branch_lookup. rewrite Hk.
  now rewrite bool_decide_eq_false_2 by assumption.
Qed.


(** C3: for every name, index-by-name returns nil exactly when resolution
    reports NotFound, returns the branch when resolution succeeds, and raises
    every other error of the resolution to the caller. *)
Theorem aref_absorbs_notfound (w : world S) (name : string) :
  let resolved := rugged_branch_lookup (RString name) w in
  let looked := rb_git_branch_collection_aref (RString name) w in
  (fst looked = Return Qnil <-> fst resolved = Return (Git_err GIT_ENOTFOUND))
  /\ (forall b, fst resolved = Return (Git_ok b) ->
        looked = (Return (rugged_branch_new b), snd resolved))
  /\ (forall e, e <> GIT_ENOTFOUND -> fst resolved = Return (Git_err e) ->
        looked = (Raise (RuggedError (git_errno e)), snd resolved))
  /\ (forall x, fst resolved = Raise x -> looked = (Raise x, snd resolved)).
Proof.
  intros resolved looked.
  assert (Hrun : looked
    = match resolved with
      | (Return r, w') =>
        if error_of r =? git_errno GIT_ENOTFOUND then (Return Qnil, w')
        else match r with
             | Git_ok b => (Return (rugged_branch_new b), w')
             | Git_err e => (Raise (RuggedError (git_errno e)), w')
             end
      | (Raise x, w') => (Raise x, w')
      | (Undefined, w') => (Undefined, w')
      end).
  { subst looked resolved. unfold rb_git_branch_collection_aref.
    rewrite bind_run. unfold Check_Type. cbn [TYPE].
    destruct (decide (T_STRING = T_STRING)) as [_|Hne]; [|congruence].
    unfold ret at 1. rewrite bind_run.
    destruct (rugged_branch_lookup (RString name) w) as [[r|x|] w']; try reflexivity.
    destruct (error_of r =? git_errno GIT_ENOTFOUND); [reflexivity|].
    rewrite bind_run. destruct r as [b|e]; simpl error_of.
    - rewrite rugged_exception_check_ok. reflexivity.
    - rewrite rugged_exception_check_err. reflexivity. }
  rewrite Hrun. clear Hrun looked.
  destruct resolved as [[[b|e]|x|] w']; cbn [fst snd error_of].
  - change (GIT_OK =? git_errno GIT_ENOTFOUND) with false. cbv iota.
    repeat split; intros; try discriminate; congruence.
  - destruct (decide (e = GIT_ENOTFOUND)) as [->|Hne].
    + rewrite Z.eqb_refl. repeat split; intros; try discriminate; congruence.
    + rewrite (errno_other e Hne).
      repeat split; intros; try discriminate; congruence.
  - repeat split; intros; try discriminate; congruence.
  - repeat split; intros; try discriminate; congruence.
Qed.




(** C5: when the branch argument names no existing branch (resolution
    reports NotFound), delete and move raise NotFound to the caller, and
    nothing follows the resolution: no existence check, no call that changes
    the store.  On the same name, index-by-name returns nil. *)
Theorem delete_move_raise_notfound (w w' : world S) (v : VALUE) :
  rugged_branch_lookup v w = (Return (Git_err GIT_ENOTFOUND), w') ->
  rb_git_branch_collection_delete v w
  = (Raise (RuggedError (git_errno GIT_ENOTFOUND)), w')
  /\ (forall new_name rb_force,
        rb_git_branch_collection_move [v; RString new_name; rb_force] w
        = (Raise (RuggedError (git_errno GIT_ENOTFOUND)), w'))
  /\ (forall new_name,
        rb_git_branch_collection_move [v; RString new_name] w
        = (Raise (RuggedError (git_errno GIT_ENOTFOUND)), w'))
  /\ (forall name, v = RString name ->
        rb_git_branch_collection_aref v w = (Return Qnil, w')).
Proof.
  intros Hres. split; [|split; [|split]].
  - unfold rb_git_branch_collection_delete. rewrite bind_run, Hres.
    rewrite bind_run. cbn [error_of]. now rewrite rugged_exception_check_err.
  - intros new_name rb_force. unfold rb_git_branch_collection_move.
    cbn [rb_scan_args_21]. rewrite bind_run. unfold ret at 1.
    rewrite bind_run. unfold Check_Type. cbn [TYPE].
    destruct (decide (T_STRING = T_STRING)) as [_|Hne]; [|congruence].
    unfold ret at 1. rewrite bind_run, Hres.
    rewrite bind_run. cbn [error_of]. now rewrite rugged_exception_check_err.
  - intros new_name. unfold rb_git_branch_collection_move.
    cbn [rb_scan_args_21]. rewrite bind_run. unfold ret at 1.
    rewrite bind_run. unfold Check_Type. cbn [TYPE].
    destruct (decide (T_STRING = T_STRING)) as [_|Hne]; [|congruence].
    unfold ret at 1. rewrite bind_run, Hres.
    rewrite bind_run. cbn [error_of]. now rewrite rugged_exception_check_err.
  - intros name ->.
    unfold rb_git_branch_collection_aref. rewrite bind_run. unfold Check_Type.
    cbn [TYPE]. destruct (decide (T_STRING = T_STRING)) as [_|Hne]; [|congruence].
    unfold ret at 1. rewrite bind_run, Hres. cbn [error_of].
    now rewrite Z.eqb_refl.
Qed.

(** C9, as the code has it: delete and move accept a name string or a branch
    handle; a handle is looked up by its qualified name, verbatim, as the
    first store access, so that the operation on a handle is the operation on
    its qualified name; an argument of any other type, and a handle whose
    [#canonical_name] is not a string, is rejected with a type error before
    any store access.  Index-by-name accepts a name string only: a branch
    handle, like any other value that is not a string, is rejected with a
    type error before any store access. *)
Theorem branch_argument_types (w : world S) :
  (forall ref n, CString.has_nul n = false ->
     rugged_branch_lookup (RBranch ref (RString n)) w
     = (Return (engine_reference_lookup (repo w) n),
        logged w [reference_lookup_call n]))
  /\ (forall ref n, CString.has_nul n = false -> carries_namespace n = true ->
        rb_git_branch_collection_delete (RBranch ref (RString n)) w
        = rb_git_branch_collection_delete (RString n) w
        /\ (forall rest,
              rb_git_branch_collection_move (RBranch ref (RString n) :: rest) w
              = rb_git_branch_collection_move (RString n :: rest) w))
  /\ (forall v, is_kind_of_RuggedBranch v = false -> TYPE v <> T_STRING ->
        rb_git_branch_collection_delete v w
        = (Raise (TypeError "Expecting a String or Rugged::Branch instance"), w)
        /\ (forall new_name rb_force,
              rb_git_branch_collection_move [v; RString new_name; rb_force] w
              = (Raise (TypeError "Expecting a String or Rugged::Branch instance"), w)))
  /\ (forall ref cn, TYPE cn <> T_STRING ->
        rugged_branch_lookup (RBranch ref cn) w
        = (Raise (TypeError "Expected #canonical_name to return a String"), w))
  /\ (forall v, TYPE v <> T_STRING ->
        rb_git_branch_collection_aref v w
        = (Raise (wrong_argument_type v T_STRING), w)).
Proof.
  split; [|split; [|split; [|split]]]; cycle 3.
  - intros ref cn Ht. unfold rugged_branch_lookup.
    cbn [is_kind_of_RuggedBranch funcall_canonical_name].
    now rewrite bool_decide_eq_false_2 by assumption.
  - intros v Ht. unfold rb_git_branch_collection_aref. rewrite bind_run.
    unfold Check_Type. destruct (decide (TYPE v = T_STRING)); [contradiction|].
    reflexivity.
  - intros ref n Hn. now apply rugged_branch_lookup_handle.
  - intros ref n Hn Hq.
    assert (Hsame : rugged_branch_lookup (RBranch ref (RString n)) w
                    = rugged_branch_lookup (RString n) w).
    { rewrite rugged_branch_lookup_handle by assumption.
      now rewrite rugged_branch_lookup_verbatim by assumption. }
    split.
    + unfold rb_git_branch_collection_delete. now apply bind_same.
    + intros rest. unfold rb_git_branch_collection_move.
      destruct rest as [|a [|b [|c rest]]]; try reflexivity.
      * cbn [rb_scan_args_21]. rewrite !bind_ret. cbv beta iota.
        unfold Check_Type. destruct (decide (TYPE a = T_STRING)); [|reflexivity].
        rewrite !bind_ret. now apply bind_same.
      * cbn [rb_scan_args_21]. rewrite !bind_ret. cbv beta iota.
        unfold Check_Type. destruct (decide (TYPE a = T_STRING)); [|reflexivity].
        rewrite !bind_ret. now apply bind_same.
  - intros v Hk Ht. split.
    + unfold rb_git_branch_collection_delete.
      now rewrite bind_run, rugged_branch_lookup_other.
    + intros new_name rb_force. unfold rb_git_branch_collection_move.
      cbn [rb_scan_args_21]. rewrite bind_run. unfold ret at 1.
      rewrite bind_run. unfold Check_Type. cbn [TYPE].
      destruct (decide (T_STRING = T_STRING)) as [_|Hne]; [|congruence].
      unfold ret at 1. now rewrite bind_run, rugged_branch_lookup_other.
Qed.

End EntryPoints.

(** ** Iteration *)

Section Iteration.

Context {S : Type} {E : Engine S}.

(** The loop, run: its calls, the last [error] and the pending exception. *)
Lemma while_branch_next_run (project : git_reference -> VALUE)
    (block : VALUE -> option exception)
    (rest : list (git_reference * git_branch_t)) (fin : git_error_code)
    (w : world S) :
  while_branch_next project block rest fin w
  = (Return (match loop_exception project block rest with
             | Some _ => GIT_OK
             | None => git_errno fin
             end,
             loop_exception project block rest),
     logged w (loop_calls project block rest)).
Proof.
  revert w. induction rest as [|[branch bt] rest IH]; intros w.
  - reflexivity.
  - cbn [while_branch_next loop_exception loop_calls].
    unfold git_branch_next. rewrite !bind_run. cbn [log fst snd].
    unfold git_branch_next_step. cbn [pending fst ret].
    unfold rb_protect_yield. rewrite !bind_run. cbn [log ret].
    destruct (block (project branch)) as [x|] eqn:Hb.
    + unfold logged; cbn [repo calls live_iterators].
      now rewrite <- app_assoc.
    + rewrite IH. unfold logged; cbn [repo calls live_iterators].
      now rewrite <- !app_assoc.
Qed.

Lemma loop_calls_no_free (project : git_reference -> VALUE)
    (block : VALUE -> option exception)
    (rest : list (git_reference * git_branch_t)) :
  ~ In iterator_free_call (loop_calls project block rest).
Proof.
  induction rest as [|[branch bt] rest IH]; cbn [loop_calls].
  - intros [Hc|[]]. discriminate Hc.
  - intros [Hc|[Hc|Hin]]; try discriminate.
    destruct (block (project branch)); [destruct Hin|now apply IH].
Qed.

(** The iteration proper on a cursor that was created. *)
Lemma each_branch_iterate_run (filter : git_branch_t)
    (block : VALUE -> option exception) (names_only : bool)
    (iter : git_branch_iterator) (w : world S) :
  engine_branch_iterator_new (repo w) filter = Git_ok iter ->
  let project := if names_only
                 then fun branch => rb_str_new_utf8 (git_reference_shorthand branch)
                 else rugged_branch_new in
  each_branch_iterate filter block names_only w
  = (match loop_exception project block (pending iter) with
     | Some x => Raise x
     | None => if decide (final iter = GIT_ITEROVER) then Return Qnil
               else Raise (RuggedError (git_errno (final iter)))
     end,
     logged w (iterator_new_call filter
               :: loop_calls project block (pending iter) ++ [iterator_free_call])).
Proof.
  intros Hnew project. unfold each_branch_iterate.
  rewrite bind_run. unfold git_branch_iterator_new, query.
  rewrite !bind_run. cbn [log repo]. rewrite Hnew. cbn [iterator_out].
  rewrite bind_ret, bind_run.
  assert (Hloop : forall w0 : world S,
    (if names_only
     then while_branch_next
            (fun branch => rb_str_new_utf8 (git_reference_shorthand branch))
            block (pending iter) (final iter)
     else while_branch_next rugged_branch_new block (pending iter) (final iter)) w0
    = while_branch_next project block (pending iter) (final iter) w0).
  { intros w0. subst project. now destruct names_only. }
  rewrite Hloop, while_branch_next_run.
  unfold git_branch_iterator_free. rewrite !bind_run. cbn [log].
  destruct (loop_exception project block (pending iter)) as [x|].
  - unfold rb_raise, logged; cbn [repo calls live_iterators Nat.pred].
    now rewrite <- !app_assoc.
  - destruct (decide (final iter = GIT_ITEROVER)) as [Hf|Hf].
    + rewrite Hf, Z.eqb_refl. cbn [negb]. rewrite bind_ret.
      unfold ret, logged; cbn [repo calls live_iterators Nat.pred].
      now rewrite <- !app_assoc.
    + rewrite (proj2 (Z.eqb_neq _ _)); [|intros Heq; now apply git_errno_inj in Heq].
      cbn [negb]. rewrite bind_run, rugged_exception_check_err.
      unfold logged; cbn [repo calls live_iterators Nat.pred].
      now rewrite <- !app_assoc.
Qed.

(** The iteration proper when the cursor could not be created: the loop
    reads an uninitialised cursor. *)
Lemma each_branch_iterate_uncreated (filter : git_branch_t)
    (block : VALUE -> option exception) (names_only : bool)
    (e : git_error_code) (w : world S) :
  engine_branch_iterator_new (repo w) filter = Git_err e ->
  each_branch_iterate filter block names_only w
  = (Undefined, logged w [iterator_new_call filter]).
Proof.
  intros Hnew. unfold each_branch_iterate.
  rewrite bind_run. unfold git_branch_iterator_new, query.
  rewrite !bind_run. cbn [log repo]. rewrite Hnew. reflexivity.
Qed.

(** [parse_branch_type] on each kind of filter value. *)
Lemma parse_branch_type_symbol (id : string) (w : world S) :
  parse_branch_type (RSymbol id) w
  = if String.eqb id "local" then (Return GIT_BRANCH_LOCAL, w)
    else if String.eqb id "remote" then (Return GIT_BRANCH_REMOTE, w)
    else (Raise (TypeError "Invalid branch filter. Expected `:remote`, `:local` or `nil`"), w).
Proof.
  unfold parse_branch_type, Check_Type, rb_intern. cbn [TYPE SYM2ID].
  destruct (decide (T_SYMBOL = T_SYMBOL)) as [_|Hne]; [|congruence].
  rewrite bind_ret.
  destruct (String.eqb id "local"); [reflexivity|].
  destruct (String.eqb id "remote"); reflexivity.
Qed.

Lemma parse_branch_type_other (v : VALUE) (w : world S) :
  TYPE v <> T_SYMBOL ->
  parse_branch_type v w = (Raise (wrong_argument_type v T_SYMBOL), w).
Proof.
  intros Ht. unfold parse_branch_type, Check_Type.
  destruct (decide (TYPE v = T_SYMBOL)); [contradiction|]. reflexivity.
Qed.

Lemma loop_exception_raised (project : git_reference -> VALUE)
    (block : VALUE -> option exception)
    (rest : list (git_reference * git_branch_t)) (x : exception) :
  loop_exception project block rest = Some x -> exists v, block v = Some x.
Proof.
  induction rest as [|[branch bt] rest IH]; cbn [loop_exception]; [discriminate|].
  destruct (block (project branch)) as [y|] eqn:Hb.
  - intros [= ->]. now exists (project branch).
  - exact IH.
Qed.

(** A block-driven call either is refused before anything happens, or runs
    the iteration proper under some filter. *)
Lemma each_branch_block (argv : list VALUE) (block : VALUE -> option exception)
    (names_only : bool) (w : world S) :
  (exists x, each_branch argv (Some block) names_only w = (Raise x, w))
  \/ (exists filter, each_branch argv (Some block) names_only w
                     = each_branch_iterate filter block names_only w).
Proof.
  unfold each_branch.
  destruct argv as [|v [|v' argv]]; cbn [rb_scan_args_01].
  - right. exists (Z.lor GIT_BRANCH_LOCAL GIT_BRANCH_REMOTE). reflexivity.
  - rewrite bind_ret. destruct v; cbn [NIL_P negb];
      try (left; eexists; rewrite bind_run, parse_branch_type_other by discriminate;
           reflexivity).
    + right. exists (Z.lor GIT_BRANCH_LOCAL GIT_BRANCH_REMOTE). reflexivity.
    + rewrite bind_run, parse_branch_type_symbol.
      destruct (String.eqb id "local"); [right; now exists GIT_BRANCH_LOCAL|].
      destruct (String.eqb id "remote"); [right; now exists GIT_BRANCH_REMOTE|].
      left. eexists. reflexivity.
  - left. eexists. reflexivity.
Qed.

(** C8, as the code has it: in a block-driven call of each or each_name the
    filter accepts exactly two symbols, :local and :remote, which select the
    Local and the Remote branch type; an absent or nil filter selects both;
    any other symbol raises the type error that names the accepted values,
    and a value that is neither nil nor a symbol raises the type error of the
    argument type check (expected Symbol).  Without a block the filter is
    handed to the enumerator unchecked. *)
Theorem filter_argument (w : world S) (block : VALUE -> option exception)
    (names_only : bool) :
  let each := fun argv => each_branch argv (Some block) names_only w in
  each [RSymbol "local"] = each_branch_iterate GIT_BRANCH_LOCAL block names_only w
  /\ each [RSymbol "remote"] = each_branch_iterate GIT_BRANCH_REMOTE block names_only w
  /\ each [Qnil]
     = each_branch_iterate (Z.lor GIT_BRANCH_LOCAL GIT_BRANCH_REMOTE) block names_only w
  /\ each [] = each [Qnil]
  /\ (Z.land (Z.lor GIT_BRANCH_LOCAL GIT_BRANCH_REMOTE) GIT_BRANCH_LOCAL = GIT_BRANCH_LOCAL
      /\ Z.land (Z.lor GIT_BRANCH_LOCAL GIT_BRANCH_REMOTE) GIT_BRANCH_REMOTE
         = GIT_BRANCH_REMOTE)
  /\ (forall filter, exists tail,
        new_calls w (snd (each_branch_iterate filter block names_only w))
        = iterator_new_call filter :: tail)
  /\ (forall id, id <> "local" -> id <> "remote" ->
        each [RSymbol id]
        = (Raise (TypeError "Invalid branch filter. Expected `:remote`, `:local` or `nil`"),
           w))
  /\ (forall v, v <> Qnil -> TYPE v <> T_SYMBOL ->
        each [v] = (Raise (wrong_argument_type v T_SYMBOL), w))
  /\ (forall v, exists symbol,
        each_branch [v] None names_only w = (Return (REnumerator symbol v), w)).
Proof.
  intros each. subst each. cbv beta.
  repeat match goal with |- _ /\ _ => split end.
  - unfold each_branch. cbn [rb_scan_args_01]. rewrite bind_ret. cbn [NIL_P negb].
    rewrite bind_run, parse_branch_type_symbol. reflexivity.
  - unfold each_branch. cbn [rb_scan_args_01]. rewrite bind_ret. cbn [NIL_P negb].
    rewrite bind_run, parse_branch_type_symbol. reflexivity.
  - reflexivity.
  - reflexivity.
  - reflexivity.
  - reflexivity.
  - intros filter.
    destruct (engine_branch_iterator_new (repo w) filter) as [iter|e] eqn:Hnew.
    + rewrite (each_branch_iterate_run filter block names_only iter w Hnew).
      cbv zeta. cbn [snd]. rewrite new_calls_logged. eexists. reflexivity.
    + rewrite (each_branch_iterate_uncreated filter block names_only e w Hnew).
      cbn [snd]. rewrite new_calls_logged. eexists. reflexivity.
  - intros id Hl Hr. unfold each_branch. cbn [rb_scan_args_01].
    rewrite bind_ret. cbn [NIL_P negb]. rewrite bind_run, parse_branch_type_symbol.
    apply String.eqb_neq in Hl, Hr. now rewrite Hl, Hr.
  - intros v Hnil Ht. unfold each_branch. cbn [rb_scan_args_01].
    rewrite bind_ret. destruct v; try congruence; cbn [NIL_P negb];
      rewrite bind_run, parse_branch_type_other by assumption; reflexivity.
  - intros v. unfold each_branch. cbn [rb_scan_args_01]. rewrite bind_ret.
    eexists. reflexivity.
Qed.

(** C10: a block-driven each or each_name leaves no cursor behind.  Either
    the call is refused before a cursor exists, or it runs the iteration; the
    count of live cursors after the call is the count before it; and once the
    cursor was created, whether the run ends by exhaustion, by an error of
    the store or by an exception of the block, the cursor is freed after its
    last use and nothing follows the release but the return or the raise. *)
Theorem iterator_released (w : world S) (argv : list VALUE)
    (block : VALUE -> option exception) (names_only : bool) :
  let res := each_branch argv (Some block) names_only w in
  live_iterators (snd res) = live_iterators w
  /\ ((exists x, res = (Raise x, w))
      \/ (exists filter, res = each_branch_iterate filter block names_only w))
  /\ (forall filter iter,
        engine_branch_iterator_new (repo w) filter = Git_ok iter ->
        let run := each_branch_iterate filter block names_only w in
        exists used,
          new_calls w (snd run) = iterator_new_call filter :: used ++ [iterator_free_call]
          /\ ~ In iterator_free_call used
          /\ ((fst run = Return Qnil /\ final iter = GIT_ITEROVER)
              \/ (fst run = Raise (RuggedError (git_errno (final iter)))
                  /\ final iter <> GIT_ITEROVER)
              \/ (exists v x, block v = Some x /\ fst run = Raise x))).
Proof.
  intros res. split; [|split].
  - subst res. destruct (each_branch_block argv block names_only w) as [[x ->]|[f ->]];
      [reflexivity|].
    destruct (engine_branch_iterator_new (repo w) f) as [iter|e] eqn:Hnew.
    + now rewrite (each_branch_iterate_run f block names_only iter w Hnew).
    + now rewrite (each_branch_iterate_uncreated f block names_only e w Hnew).
  - apply each_branch_block.
  - intros filter iter Hnew run. subst run.
    rewrite (each_branch_iterate_run filter block names_only iter w Hnew).
    cbv zeta. cbn [fst snd]. rewrite new_calls_logged.
    eexists. split; [reflexivity|]. split; [apply loop_calls_no_free|].
    match goal with
    | |- context [loop_exception ?p block (pending iter)] =>
      destruct (loop_exception p block (pending iter)) as [x|] eqn:Hx
    end.
    + right; right. apply loop_exception_raised in Hx. destruct Hx as [v Hv].
      now exists v, x.
    + destruct (decide (final iter = GIT_ITEROVER)) as [Hf|Hf].
      * left. now split.
      * right; left. now split.
Qed.

End Iteration.

(** ** The operations on the reference store *)

Section OnRefStore.

Import RefStore.

(** Whatever resolution returns was answered by one of the engine's lookups
    on the unchanged repository. *)
Lemma rugged_branch_lookup_origin {S : Type} {E : Engine S}
    (v : VALUE) (w w1 : world S) (r : git_result git_reference) :
  rugged_branch_lookup v w = (Return r, w1) ->
  repo w1 = repo w
  /\ live_iterators w1 = live_iterators w
  /\ ((exists n, r = engine_reference_lookup (repo w) n)
      \/ (exists n t, r = engine_branch_lookup (repo w) n t)).
Proof.
  destruct v as [| | |s| | |ref cn| |];
    try (rewrite rugged_branch_lookup_other by (reflexivity || discriminate);
         discriminate).
  - destruct (CString.has_nul s) eqn:Hn.
    + unfold rugged_branch_lookup. cbn [is_kind_of_RuggedBranch TYPE].
      rewrite bool_decide_eq_true_2 by reflexivity.
      rewrite bind_run. unfold StringValueCStr. rewrite Hn. discriminate.
    + destruct (carries_namespace s) eqn:Hq.
      * rewrite rugged_branch_lookup_verbatim by assumption.
        intros [= <- <-]. repeat split. left. now exists s.
      * rewrite (rugged_branch_lookup_chain s w Hn Hq). cbv zeta.
        destruct (negb (is_notfound (engine_branch_lookup (repo w) s GIT_BRANCH_LOCAL))).
        { intros [= <- <-]. repeat split. right. now exists s, GIT_BRANCH_LOCAL. }
        destruct (negb (is_notfound (engine_branch_lookup (repo w) s GIT_BRANCH_REMOTE))).
        { intros [= <- <-]. repeat split. right. now exists s, GIT_BRANCH_REMOTE. }
        intros [= <- <-]. repeat split. left. now exists ("refs/" ++ s).
  - destruct cn as [| | |n| | | | |];
      try (unfold rugged_branch_lookup;
           cbn [is_kind_of_RuggedBranch funcall_canonical_name TYPE];
           rewrite bool_decide_eq_false_2 by discriminate; discriminate).
    destruct (CString.has_nul n) eqn:Hn.
    + unfold rugged_branch_lookup.
      cbn [is_kind_of_RuggedBranch funcall_canonical_name TYPE].
      rewrite bool_decide_eq_true_2 by reflexivity. cbn [negb].
      rewrite bind_run. unfold StringValueCStr. rewrite Hn. discriminate.
    + rewrite rugged_branch_lookup_handle by assumption.
      intros [= <- <-]. repeat split. left. now exists n.
Qed.

Lemma refGet_ok (db : refdb) (n : string) (r : git_reference) :
  refGet db n = Git_ok r ->
  reference_name r = n
  /\ refs db !! n = Some (reference_target r)
  /\ n ∉ unreadable db.
Proof.
  unfold refGet. destruct (decide (n ∈ unreadable db)); [discriminate|].
  destruct (refs db !! n) as [t|]; [|discriminate].
  intros [= <-]. now repeat split.
Qed.

(** On the store, a resolved branch is an entry of the store. *)
Lemma resolved_in_store (v : VALUE) (w w1 : world refdb) (old : git_reference) :
  rugged_branch_lookup v w = (Return (Git_ok old), w1) ->
  repo w1 = repo w
  /\ refs (repo w) !! reference_name old = Some (reference_target old)
  /\ reference_name old ∉ unreadable (repo w).
Proof.
  intros Hres. apply rugged_branch_lookup_origin in Hres.
  destruct Hres as (Hrepo & _ & [[n Hr]|[n [t Hr]]]); split; try assumption.
  - symmetry in Hr. cbn [engine_reference_lookup refdb_engine] in Hr.
    apply refGet_ok in Hr. destruct Hr as (<- & Hr & Hu). now split.
  - symmetry in Hr. cbn [engine_branch_lookup refdb_engine] in Hr.
    destruct (t =? GIT_BRANCH_REMOTE);
      apply refGet_ok in Hr; destruct Hr as (Hname & Hr & Hu);
      rewrite Hname; now split.
Qed.

(** The force flag as the binding parses it: absent, nil and false are 0. *)
Lemma force_parsed (rb_force : VALUE) (w : world refdb) :
  rb_force = Qnil \/ rb_force = Qfalse \/ rb_force = Qtrue ->
  (if negb (NIL_P rb_force) then rugged_parse_bool rb_force else ret 0) w
  = (Return (match rb_force with Qtrue => 1 | _ => 0 end), w).
Proof. intros [->|[->| ->]]; reflexivity. Qed.

Lemma Check_Type_string (s : string) (w : world refdb) :
  Check_Type (RString s) T_STRING w = (Return tt, w).
Proof.
  unfold Check_Type. cbn [TYPE].
  destruct (decide (T_STRING = T_STRING)) as [_|Hne]; [reflexivity|congruence].
Qed.

(** create, run on the store. *)
Lemma create_run (w : world refdb) (name target : string) (rb_force : VALUE) :
  CString.has_nul name = false ->
  rb_force = Qnil \/ rb_force = Qfalse \/ rb_force = Qtrue ->
  let force := match rb_force with Qtrue => 1 | _ => 0 end in
  rb_git_branch_collection_create [RString name; RString target; rb_force] w
  = if decide (target ∈ commits (repo w)) then
      (match fst (refCreate (repo w) ("refs/heads/" ++ name) (Direct target) force) with
       | Git_ok b => Return (rugged_branch_new b)
       | Git_err e => Raise (RuggedError (git_errno e))
       end,
       mk_world (snd (refCreate (repo w) ("refs/heads/" ++ name) (Direct target) force))
                (calls w ++ [object_get_call (RString target);
                             branch_create_call name target force])
                (live_iterators w))
    else (Raise InvalidTarget, logged w [object_get_call (RString target)]).
Proof.
  intros Hn Hf force. unfold rb_git_branch_collection_create.
  cbn [rb_scan_args_21]. rewrite bind_ret. cbv beta iota.
  rewrite bind_run, Check_Type_string, bind_run, Check_Type_string.
  rewrite bind_run, (force_parsed rb_force w Hf). fold force.
  rewrite bind_run. unfold rugged_object_get. rewrite bind_run. cbn [log].
  cbn [repo engine_object_get refdb_engine resolveCommit].
  destruct (decide (target ∈ commits (repo w))) as [Hc|Hc]; [|reflexivity].
  rewrite bind_run. unfold StringValueCStr. rewrite Hn. unfold ret at 1.
  rewrite bind_run. unfold git_branch_create, update. rewrite bind_run. cbn [log].
  cbn [repo calls live_iterators engine_branch_create refdb_engine].
  destruct (refCreate (repo w) ("refs/heads/" ++ name) (Direct target) force)
    as [[b|e] db'] eqn:Hcreate; cbn [fst snd].
  - rewrite bind_run. cbn [error_of]. rewrite rugged_exception_check_ok.
    cbn [out_param]. rewrite bind_ret. unfold ret. now rewrite <- app_assoc.
  - rewrite bind_run. cbn [error_of]. rewrite rugged_exception_check_err.
    now rewrite <- app_assoc.
Qed.

(** C6: create requires the target to resolve to an existing commit and fails
    with InvalidTarget otherwise, writing nothing; it writes the reference
    refs/heads/<name>; without force it fails with AlreadyExists when a branch
    of that name exists, leaving the store as it was; with force it succeeds
    and repoints the existing branch to the new target. *)
Theorem create_contract (w : world refdb) (name target : string) (rb_force : VALUE) :
  CString.has_nul name = false ->
  "refs/heads/" ++ name ∉ unreadable (repo w) ->
  rb_force = Qnil \/ rb_force = Qfalse \/ rb_force = Qtrue ->
  let dest := "refs/heads/" ++ name in
  let branch := mk_reference dest (Direct target) in
  let created :=
    rb_git_branch_collection_create [RString name; RString target; rb_force] w in
  (target ∉ commits (repo w) ->
     fst created = Raise InvalidTarget /\ repo (snd created) = repo w)
  /\ (target ∈ commits (repo w) -> refs (repo w) !! dest = None ->
      fst created = Return (rugged_branch_new branch)
      /\ refs (repo (snd created)) = <[dest := Direct target]> (refs (repo w))
      /\ engine_reference_lookup (repo (snd created)) dest = Git_ok branch)
  /\ (target ∈ commits (repo w) -> is_Some (refs (repo w) !! dest) ->
      rb_force <> Qtrue ->
      fst created = Raise (RuggedError (git_errno GIT_EEXISTS))
      /\ repo (snd created) = repo w)
  /\ (target ∈ commits (repo w) -> is_Some (refs (repo w) !! dest) ->
      rb_force = Qtrue ->
      fst created = Return (rugged_branch_new branch)
      /\ refs (repo (snd created)) = <[dest := Direct target]> (refs (repo w))
      /\ engine_reference_lookup (repo (snd created)) dest = Git_ok branch)
  /\ rb_git_branch_collection_create [RString name; RString target] w
     = rb_git_branch_collection_create [RString name; RString target; Qnil] w.
Proof.
  intros Hn Hu Hf dest branch created. subst created.
  rewrite (create_run w name target rb_force Hn Hf). cbv zeta. fold dest.
  assert (Hlook : forall db', refs db' = <[dest := Direct target]> (refs (repo w)) ->
                              unreadable db' = unreadable (repo w) ->
                              refGet db' dest = Git_ok branch).
  { intros db' Hrefs Hunr. unfold refGet. rewrite Hunr.
    destruct (decide (dest ∈ unreadable (repo w))); [contradiction|].
    now rewrite Hrefs, lookup_insert_eq. }
  split; [|split; [|split; [|split]]].
  - intros Hc. destruct (decide (target ∈ commits (repo w))); [contradiction|].
    now split.
  - intros Hc Hfree. destruct (decide (target ∈ commits (repo w))); [|contradiction].
    unfold refCreate. destruct (decide (dest ∈ unreadable (repo w))); [contradiction|].
    rewrite Hfree. cbn [fst snd repo]. repeat split.
    now apply Hlook.
  - intros Hc [t Ht] Hnf. destruct (decide (target ∈ commits (repo w))); [|contradiction].
    unfold refCreate. destruct (decide (dest ∈ unreadable (repo w))); [contradiction|].
    rewrite Ht. destruct Hf as [->|[->| ->]]; try congruence; now split.
  - intros Hc [t Ht] ->. destruct (decide (target ∈ commits (repo w))); [|contradiction].
    unfold refCreate. destruct (decide (dest ∈ unreadable (repo w))); [contradiction|].
    rewrite Ht. cbn [fst snd repo Z.eqb]. repeat split.
    now apply Hlook.
  - reflexivity.
Qed.

(** move, run on the store once the old branch is resolved. *)
Lemma move_run (w w1 : world refdb) (v : VALUE) (old : git_reference)
    (new_name : string) (rb_force : VALUE) :
  rugged_branch_lookup v w = (Return (Git_ok old), w1) ->
  CString.has_nul new_name = false ->
  rb_force = Qnil \/ rb_force = Qfalse \/ rb_force = Qtrue ->
  let force := match rb_force with Qtrue => 1 | _ => 0 end in
  let renamed := refRename (repo w) old ("refs/heads/" ++ new_name) force in
  rb_git_branch_collection_move [v; RString new_name; rb_force] w
  = (match fst renamed with
     | Git_ok b => Return (rugged_branch_new b)
     | Git_err e => Raise (RuggedError (git_errno e))
     end,
     mk_world (snd renamed)
              (calls w1 ++ [branch_move_call old new_name force])
              (live_iterators w1)).
Proof.
  intros Hres Hn Hf force renamed. unfold rb_git_branch_collection_move.
  cbn [rb_scan_args_21]. rewrite bind_ret. cbv beta iota.
  rewrite bind_run, Check_Type_string, bind_run, Hres.
  rewrite bind_run. cbn [error_of]. rewrite rugged_exception_check_ok.
  cbn [out_param]. rewrite bind_ret.
  rewrite bind_run, (force_parsed rb_force w1 Hf). fold force.
  rewrite bind_run. unfold StringValueCStr. rewrite Hn. unfold ret at 1.
  rewrite bind_run. unfold git_branch_move, update. rewrite bind_run. cbn [log].
  cbn [repo calls live_iterators engine_branch_move refdb_engine].
  destruct (resolved_in_store v w w1 old Hres) as (Hrepo & _ & _).
  rewrite Hrepo. fold renamed.
  destruct renamed as [[b|e] db'] eqn:Hren; cbn [fst snd].
  - rewrite bind_run. cbn [error_of]. rewrite rugged_exception_check_ok.
    cbn [out_param]. rewrite bind_ret. unfold ret. reflexivity.
  - rewrite bind_run. cbn [error_of]. rewrite rugged_exception_check_err.
    reflexivity.
Qed.

(** C7: move (rename) of an existing branch, local or remote, renames its
    reference to refs/heads/<new_name>, whatever the namespace of the source,
    keeping the target; it fails with AlreadyExists, leaving the store as it
    was, when a reference exists at the destination and force is not true. *)
Theorem move_contract (w w1 : world refdb) (v : VALUE) (old : git_reference)
    (new_name : string) (rb_force : VALUE) :
  rugged_branch_lookup v w = (Return (Git_ok old), w1) ->
  CString.has_nul new_name = false ->
  "refs/heads/" ++ new_name ∉ unreadable (repo w) ->
  rb_force = Qnil \/ rb_force = Qfalse \/ rb_force = Qtrue ->
  let dest := "refs/heads/" ++ new_name in
  let branch := mk_reference dest (reference_target old) in
  let moved := rb_git_branch_collection_move [v; RString new_name; rb_force] w in
  (refs (repo w) !! dest = None \/ rb_force = Qtrue ->
     fst moved = Return (rugged_branch_new branch)
     /\ refs (repo (snd moved))
        = <[dest := reference_target old]> (delete (reference_name old) (refs (repo w)))
     /\ engine_reference_lookup (repo (snd moved)) dest = Git_ok branch)
  /\ (is_Some (refs (repo w) !! dest) -> rb_force <> Qtrue ->
      fst moved = Raise (RuggedError (git_errno GIT_EEXISTS))
      /\ repo (snd moved) = repo w)
  /\ rb_git_branch_collection_move [v; RString new_name] w
     = rb_git_branch_collection_move [v; RString new_name; Qnil] w.
Proof.
  intros Hres Hn Hu Hf dest branch moved. subst moved.
  rewrite (move_run w w1 v old new_name rb_force Hres Hn Hf). cbv zeta. fold dest.
  destruct (resolved_in_store v w w1 old Hres) as (_ & Hold & Hread).
  unfold refRename.
  destruct (decide (reference_name old ∈ unreadable (repo w))); [contradiction|].
  destruct (decide (dest ∈ unreadable (repo w))); [contradiction|].
  rewrite Hold.
  assert (Hlook : refGet (with_refs (repo w)
                    (<[dest := reference_target old]>
                       (delete (reference_name old) (refs (repo w))))) dest
                  = Git_ok branch).
  { unfold refGet. cbn [unreadable refs with_refs].
    destruct (decide (dest ∈ unreadable (repo w))); [contradiction|].
    now rewrite lookup_insert_eq. }
  split; [|split].
  - intros [Hfree| ->].
    + rewrite Hfree. cbn [fst snd repo]. now repeat split.
    + destruct (refs (repo w) !! dest); cbn [fst snd repo Z.eqb]; now repeat split.
  - intros [t Ht] Hnf. rewrite Ht.
    destruct Hf as [->|[->| ->]]; try congruence; now split.
  - reflexivity.
Qed.

End OnRefStore.

(** ** Runs on the sample repositories *)

Section Runs.

Import RefStore Samples.

(** The resolver on db_xy: the bare name x has a local and a remote branch,
    and the local one is returned. *)
Lemma resolution_precedence_witness :
  fst (rugged_branch_lookup (RString "x") (session db_xy))
  = Return (Git_ok (mk_reference "refs/heads/x" (Direct "c1"))).
Proof.
  pose proof (resolution_precedence (session db_xy) "x" eq_refl
                (fun n => eq_refl) (fun n => eq_refl)) as Hres.
  cbv zeta in Hres. destruct Hres as [Hbare _].
  destruct (Hbare eq_refl) as (_ & _ & _ & Hboth).
  apply (Hboth _ (mk_reference "refs/remotes/x" (Direct "c2")));
    vm_compute; reflexivity.
Defined.

(** The resolver on db_faulty: no local x, and the remote x on failing
    storage; the error is returned and the raw step is not attempted. *)
Lemma error_aborts_resolution_witness :
  rugged_branch_lookup (RString "x") (session db_faulty)
  = (Return (Git_err GIT_ERROR),
     logged (session db_faulty)
            [branch_lookup_call "x" GIT_BRANCH_LOCAL;
             branch_lookup_call "x" GIT_BRANCH_REMOTE]).
Proof.
  pose proof (error_aborts_resolution (session db_faulty) "x" GIT_ERROR eq_refl eq_refl)
    as Hres.
  cbv zeta in Hres.
  destruct Hres as (_ & Hremote & _); [discriminate|].
  apply Hremote; vm_compute; reflexivity.
Defined.

(** Deleting a branch that does not exist raises NotFound after the three
    lookups of the resolver, and nothing else is called. *)
Lemma delete_move_raise_notfound_witness :
  rb_git_branch_collection_delete (RString "nope") (session db_xy)
  = (Raise (RuggedError (git_errno GIT_ENOTFOUND)),
     logged (session db_xy)
            [branch_lookup_call "nope" GIT_BRANCH_LOCAL;
             branch_lookup_call "nope" GIT_BRANCH_REMOTE;
             reference_lookup_call "refs/nope"]).
Proof.
  refine (proj1 (delete_move_raise_notfound (session db_xy) _ (RString "nope") _)).
  vm_compute. reflexivity.
Defined.

(** create with force on the existing branch x repoints it to c2. *)
Lemma create_contract_witness :
  let created :=
    rb_git_branch_collection_create [RString "x"; RString "c2"; Qtrue] (session db_xy) in
  fst created = Return (rugged_branch_new (mk_reference "refs/heads/x" (Direct "c2")))
  /\ engine_reference_lookup (repo (snd created)) "refs/heads/x"
     = Git_ok (mk_reference "refs/heads/x" (Direct "c2")).
Proof.
  pose proof (create_contract (session db_xy) "x" "c2" Qtrue eq_refl) as Hc.
  cbv zeta in Hc.
  destruct Hc as (_ & _ & _ & Hforce & _).
  - vm_compute. set_solver.
  - right; right; reflexivity.
  - destruct Hforce as (Hret & _ & Hlook).
    + vm_compute. set_solver.
    + exists (Direct "c1"). vm_compute. reflexivity.
    + reflexivity.
    + cbv zeta. split; assumption.
Defined.

(** move of the remote branch origin/y to z lands in refs/heads/. *)
Lemma move_contract_witness :
  fst (rb_git_branch_collection_move [RString "origin/y"; RString "z"; Qnil]
         (session db_xy))
  = Return (rugged_branch_new (mk_reference "refs/heads/z" (Direct "c2"))).
Proof.
  pose proof (move_contract (session db_xy)
                (logged (session db_xy)
                        [branch_lookup_call "origin/y" GIT_BRANCH_LOCAL;
                         branch_lookup_call "origin/y" GIT_BRANCH_REMOTE])
                (RString "origin/y")
                (mk_reference "refs/remotes/origin/y" (Direct "c2"))
                "z" Qnil) as Hm.
  cbv zeta in Hm.
  destruct Hm as (Hfree & _ & _).
  - vm_compute. reflexivity.
  - reflexivity.
  - vm_compute. set_solver.
  - left; reflexivity.
  - destruct Hfree as (Hret & _ & _).
    + left. vm_compute. reflexivity.
    + exact Hret.
Defined.

(** C9 does not hold of index-by-name: a handle of the existing branch x is
    rejected by the type check before any store access, while delete takes
    the same handle. *)
Lemma aref_rejects_branch_handle :
  let handle := rugged_branch_new (mk_reference "refs/heads/x" (Direct "c1")) in
  rb_git_branch_collection_aref handle (session db_xy)
  = (Raise (TypeError "wrong argument type Rugged::Branch (expected String)"), session db_xy)
  /\ fst (rb_git_branch_collection_delete handle (session db_xy)) = Return Qnil.
Proof. split; vm_compute; reflexivity. Qed.

(** C8 does not hold of a filter that is not a symbol: the string local
    raises the type error of the argument type check, which names no accepted
    value. *)
Lemma string_filter_error_names_no_values :
  let raised :=
    fst (rb_git_branch_collection_each [RString "local"] (Some (fun _ => None))
           (session db_xy)) in
  raised = Raise (TypeError "wrong argument type String (expected Symbol)")
  /\ raised
     <> Raise (TypeError "Invalid branch filter. Expected `:remote`, `:local` or `nil`").
Proof. split; vm_compute; [reflexivity|discriminate]. Qed.


(** Index-by-name and exist? on the samples: found, absent, failing. *)
Example aref_exist_p_runs :
  fst (rb_git_branch_collection_aref (RString "x") (session db_xy))
  = Return (rugged_branch_new (mk_reference "refs/heads/x" (Direct "c1")))
  /\ fst (rb_git_branch_collection_aref (RString "nope") (session db_xy)) = Return Qnil
  /\ fst (rb_git_branch_collection_aref (RString "x") (session db_faulty))
     = Raise (RuggedError (git_errno GIT_ERROR))
  /\ fst (rb_git_branch_collection_exist_p (RString "x") (session db_xy)) = Return Qtrue
  /\ fst (rb_git_branch_collection_exist_p (RString "nope") (session db_xy))
     = Undefined
  /\ fst (rb_git_branch_collection_exist_p (RString "x") (session db_faulty))
     = Undefined.
Proof. repeat split; vm_compute; reflexivity. Qed.

(** The three exits of a block-driven iteration, each with the cursor freed
    last and no cursor left live. *)
Example each_exits :
  let stop_at_x := fun v => match v with
                            | RString "x" => Some (RuntimeError "stop")
                            | _ => None
                            end in
  let exhausted :=
    rb_git_branch_collection_each_name [RSymbol "remote"] (Some (fun _ => None))
      (session db_xy) in
  let failed :=
    rb_git_branch_collection_each_name [RSymbol "remote"] (Some (fun _ => None))
      (session db_faulty) in
  let interrupted :=
    rb_git_branch_collection_each_name [] (Some stop_at_x) (session db_xy) in
  (fst exhausted = Return Qnil
   /\ calls (snd exhausted)
      = [iterator_new_call GIT_BRANCH_REMOTE;
         branch_next_call; yield_call (RString "origin/y");
         branch_next_call; yield_call (RString "x");
         branch_next_call; iterator_free_call]
   /\ live_iterators (snd exhausted) = 0%nat)
  /\ (fst failed = Raise (RuggedError (git_errno GIT_ERROR))
      /\ calls (snd failed)
         = [iterator_new_call GIT_BRANCH_REMOTE;
            branch_next_call; yield_call (RString "origin/y");
            branch_next_call; iterator_free_call]
      /\ live_iterators (snd failed) = 0%nat)
  /\ (fst interrupted = Raise (RuntimeError "stop")
      /\ calls (snd interrupted)
         = [iterator_new_call (Z.lor GIT_BRANCH_LOCAL GIT_BRANCH_REMOTE);
            branch_next_call; yield_call (RString "origin/y");
            branch_next_call; yield_call (RString "x");
            iterator_free_call]
      /\ live_iterators (snd interrupted) = 0%nat).
Proof. repeat split; vm_compute; reflexivity. Qed.

End Runs.

(** * Further properties of the entry points *)

(** ** Resolution and the read-only entry points *)

Section ReadOnly.

Context {S : Type} {E : Engine S}.

(** Resolution either raises before any call, or returns after one to three
    lookups. *)
Lemma rugged_branch_lookup_shape (v : VALUE) (w : world S) :
  (exists x, rugged_branch_lookup v w = (Raise x, w)
             /\ (x = TypeError "Expecting a String or Rugged::Branch instance"
                 \/ x = TypeError "Expected #canonical_name to return a String"
                 \/ x = ArgumentError "string contains null byte"))
  \/ (exists r cs, rugged_branch_lookup v w = (Return r, logged w cs)
                   /\ (1 <= List.length cs <= 3)%nat
                   /\ Forall (fun c => is_lookup_call c = true) cs).
Proof.
  destruct v as [| | |s| | |ref cn| |];
    try (left; eexists; split;
         [apply rugged_branch_lookup_other; (reflexivity || discriminate)|tauto]).
  - destruct (CString.has_nul s) eqn:Hn.
    + left. eexists. split; [|right; right; reflexivity].
      unfold rugged_branch_lookup. cbn [is_kind_of_RuggedBranch TYPE].
      rewrite bool_decide_eq_true_2 by reflexivity.
      rewrite bind_run. unfold StringValueCStr. now rewrite Hn.
    + right. destruct (carries_namespace s) eqn:Hq.
      * do 2 eexists. split; [now apply rugged_branch_lookup_verbatim|].
        split; [simpl; lia|]. repeat constructor.
      * rewrite (rugged_branch_lookup_chain s w Hn Hq). cbv zeta.
        repeat match goal with |- context [if ?b then _ else _] => destruct b end;
          do 2 eexists; (split; [reflexivity|]); (split; [simpl; lia|]);
          repeat constructor.
  - destruct (bool_decide (TYPE cn = T_STRING)) eqn:Ht.
    + apply bool_decide_eq_true_1 in Ht. destruct cn; try discriminate Ht.
      destruct (CString.has_nul s) eqn:Hn.
      * left. eexists. split; [|right; right; reflexivity].
        unfold rugged_branch_lookup.
        cbn [is_kind_of_RuggedBranch funcall_canonical_name TYPE].
        rewrite bool_decide_eq_true_2 by reflexivity. cbn [negb].
        rewrite bind_run. unfold StringValueCStr. now rewrite Hn.
      * right. do 2 eexists. split; [now apply rugged_branch_lookup_handle|].
        split; [simpl; lia|]. repeat constructor.
    + left. eexists. split; [|right; left; reflexivity].
      unfold rugged_branch_lookup.
      cbn [is_kind_of_RuggedBranch funcall_canonical_name]. now rewrite Ht.
Qed.


(** X1: resolution of a name or handle never writes to the store and never
    reads an out-parameter: when it raises, it does so before any call to the
    engine, with one of three argument errors; when it returns, it has made
    between one and three calls, all of them lookups. *)
Theorem resolution_footprint (v : VALUE) (w : world S) :
  match rugged_branch_lookup v w with
  | (Raise x, w') =>
    w' = w
    /\ (x = TypeError "Expecting a String or Rugged::Branch instance"
        \/ x = TypeError "Expected #canonical_name to return a String"
        \/ x = ArgumentError "string contains null byte")
  | (Return r, w') =>
    exists cs, w' = logged w cs
               /\ (1 <= List.length cs <= 3)%nat
               /\ Forall (fun c => is_lookup_call c = true) cs
  | (Undefined, _) => False
  end.
Proof.
  destruct (rugged_branch_lookup_shape v w) as [(x & -> & Hx)|(r & cs & -> & Hlen & Hcs)].
  - now split.
  - now exists cs.
Qed.


End ReadOnly.

(** ** Iteration: what it calls and what it yields *)

Section IterationFootprint.

Context {S : Type} {E : Engine S}.

Lemma new_calls_same (w : world S) : new_calls w w = [].
Proof. unfold new_calls. apply drop_all. Qed.

Lemma logged_nil (w : world S) : logged w [] = w.
Proof. unfold logged. rewrite app_nil_r. now destruct w. Qed.

(** A block-driven call runs the iteration under the accepted filter, or is
    refused before any call. *)
Lemma each_branch_accepted (argv : list VALUE) (block : VALUE -> option exception)
    (names_only : bool) (w : world S) :
  match accepted_filter argv with
  | Some filter =>
    each_branch argv (Some block) names_only w
    = each_branch_iterate filter block names_only w
  | None => exists x, each_branch argv (Some block) names_only w = (Raise x, w)
  end.
Proof.
  unfold each_branch, accepted_filter.
  destruct argv as [|v [|v' argv]]; cbn [rb_scan_args_01].
  - reflexivity.
  - destruct v; cbv iota;
      try (eexists; rewrite bind_ret; cbn [NIL_P negb];
           rewrite bind_run, parse_branch_type_other by discriminate;
           reflexivity);
      try reflexivity.
    pose proof (parse_branch_type_symbol id w) as Hparse.
    destruct (String.eqb id "local"); cbv iota;
      [rewrite bind_ret; cbn [NIL_P negb]; now rewrite bind_run, Hparse|].
    destruct (String.eqb id "remote"); cbv iota;
      [rewrite bind_ret; cbn [NIL_P negb]; now rewrite bind_run, Hparse|].
    eexists. rewrite bind_ret. cbn [NIL_P negb]. now rewrite bind_run, Hparse.
  - destruct v; cbv iota; eexists; reflexivity.
Qed.

Lemma each_branch_no_block (argv : list VALUE) (names_only : bool) (w : world S) :
  snd (each_branch argv None names_only w) = w
  /\ fst (each_branch argv None names_only w) <> Undefined.
Proof.
  unfold each_branch. destruct argv as [|v [|v' argv]]; cbn [rb_scan_args_01];
    split; (reflexivity || discriminate).
Qed.

Lemma accepted_filter_range (argv : list VALUE) (filter : git_branch_t) :
  accepted_filter argv = Some filter ->
  filter = GIT_BRANCH_LOCAL \/ filter = GIT_BRANCH_REMOTE
  \/ filter = Z.lor GIT_BRANCH_LOCAL GIT_BRANCH_REMOTE.
Proof.
  unfold accepted_filter. intros Hf.
  destruct argv as [|v [|v' argv]]; try destruct v; cbv iota in Hf;
    try discriminate Hf;
    repeat match type of Hf with
           | context [if ?b then _ else _] => destruct b
           end;
    try discriminate Hf; injection Hf as <-; tauto.
Qed.

Lemma loop_calls_iteration (project : git_reference -> VALUE)
    (block : VALUE -> option exception)
    (rest : list (git_reference * git_branch_t)) :
  Forall (fun c => is_iteration_call c = true) (loop_calls project block rest)
  /\ (forall f, ~ In (iterator_new_call f) (loop_calls project block rest)).
Proof.
  induction rest as [|[branch bt] rest [IH1 IH2]]; cbn [loop_calls].
  - split; [repeat constructor|]. intros f [Hc|[]]. discriminate Hc.
  - destruct (block (project branch)).
    + split; [repeat constructor|]. intros f [Hc|[Hc|[]]]; discriminate.
    + split; [repeat constructor; exact IH1|].
      intros f [Hc|[Hc|Hin]]; try discriminate. exact (IH2 f Hin).
Qed.

(** X4: each and each_name never change the repository and call nothing but
    the cursor and the block; the only filter they hand to the engine is the
    one accepted from their argument, which is Local, Remote or both; without
    a block they make no call at all. *)
Theorem each_footprint (argv : list VALUE) (block : option (VALUE -> option exception))
    (names_only : bool) (w : world S) :
  let res := each_branch argv block names_only w in
  repo (snd res) = repo w
  /\ Forall (fun c => is_iteration_call c = true) (new_calls w (snd res))
  /\ (forall f, In (iterator_new_call f) (new_calls w (snd res)) ->
        accepted_filter argv = Some f
        /\ (f = GIT_BRANCH_LOCAL \/ f = GIT_BRANCH_REMOTE
            \/ f = Z.lor GIT_BRANCH_LOCAL GIT_BRANCH_REMOTE))
  /\ (block = None -> snd res = w).
Proof.
  cbv zeta. destruct block as [block|].
  2:{ destruct (each_branch_no_block argv names_only w) as [-> _].
      rewrite new_calls_same.
      split; [reflexivity|]. split; [constructor|]. split; [intros f []|reflexivity]. }
  generalize (each_branch_accepted argv block names_only w).
  destruct (accepted_filter argv) as [filter|] eqn:Hf; intros Hacc.
  - rewrite Hacc. clear Hacc.
    pose proof (accepted_filter_range argv filter Hf) as Hrange.
    destruct (engine_branch_iterator_new (repo w) filter) as [iter|e] eqn:Hnew.
    + rewrite (each_branch_iterate_run filter block names_only iter w Hnew).
      cbv zeta. cbn [snd]. rewrite new_calls_logged.
      match goal with
      | |- context [loop_calls ?p block (pending iter)] =>
        destruct (loop_calls_iteration p block (pending iter)) as [Hall Hnone]
      end.
      split; [reflexivity|]. split; [|split; [|discriminate]].
      * constructor; [reflexivity|]. apply Forall_app. split; [exact Hall|].
        repeat constructor.
      * intros f [[= <-]|Hin]; [now split|].
        apply in_app_or in Hin. destruct Hin as [Hin|[Hin|[]]];
          [now apply Hnone in Hin|discriminate Hin].
    + rewrite (each_branch_iterate_uncreated filter block names_only e w Hnew).
      cbn [snd]. rewrite new_calls_logged.
      split; [reflexivity|]. split; [|split; [|discriminate]].
      * repeat constructor.
      * intros f [[= <-]|[]]. now split.
  - destruct Hacc as [x ->]. cbn [snd]. rewrite new_calls_same.
    split; [reflexivity|]. split; [constructor|]. split; [intros f []|discriminate].
Qed.

(** X5: each and each_name read an uninitialised cursor exactly when a block
    is given, the filter is accepted and the engine fails to create the
    cursor: the return code of the creation (line 202) is not looked at. *)
Theorem each_undefined_iff (argv : list VALUE)
    (block : option (VALUE -> option exception)) (names_only : bool) (w : world S) :
  fst (each_branch argv block names_only w) = Undefined
  <-> exists blk filter e,
        block = Some blk
        /\ accepted_filter argv = Some filter
        /\ engine_branch_iterator_new (repo w) filter = Git_err e.
Proof.
  destruct block as [block|].
  2:{ split.
      - intros Hu. now destruct (each_branch_no_block argv names_only w) as [_ Hd].
      - intros (blk & _ & _ & Hb & _). discriminate Hb. }
  generalize (each_branch_accepted argv block names_only w).
  destruct (accepted_filter argv) as [filter|] eqn:Hf; intros Hacc.
  - rewrite Hacc. clear Hacc.
    destruct (engine_branch_iterator_new (repo w) filter) as [iter|e] eqn:Hnew.
    + rewrite (each_branch_iterate_run filter block names_only iter w Hnew).
      cbv zeta. cbn [fst]. split.
      * match goal with
        | |- context [loop_exception ?p block (pending iter)] =>
          destruct (loop_exception p block (pending iter))
        end; [discriminate|].
        destruct (decide (final iter = GIT_ITEROVER)); discriminate.
      * intros (blk & f & e & _ & [= <-] & He). congruence.
    + rewrite (each_branch_iterate_uncreated filter block names_only e w Hnew).
      split; [|reflexivity]. intros _. now exists block, filter, e.
  - destruct Hacc as [x ->]. split; [discriminate|].
    intros (blk & f & e & _ & Hsome & _). discriminate Hsome.
Qed.

Lemma yielded_app (a b : list call) :
  yielded (a ++ b)%list = (yielded a ++ yielded b)%list.
Proof.
  induction a as [|c a IH]; [reflexivity|].
  destruct c; cbn [yielded app]; now rewrite ?IH.
Qed.

(** What the loop yields: a prefix of what the cursor holds, projected; the
    block accepted all but possibly the last value. *)
Lemma loop_yields (project : git_reference -> VALUE)
    (block : VALUE -> option exception)
    (rest : list (git_reference * git_branch_t)) :
  let ys := yielded (loop_calls project block rest) in
  exists n,
    (n <= List.length rest)%nat
    /\ ys = map (fun b => project (fst b)) (take n rest)
    /\ Forall (fun v => block v = None) (take (n - 1) ys)
    /\ (loop_exception project block rest = None ->
        n = List.length rest /\ Forall (fun v => block v = None) ys)
    /\ (forall x, loop_exception project block rest = Some x ->
        exists v, last ys = Some v /\ block v = Some x).
Proof.
  induction rest as [|[branch bt] rest IH]; cbv zeta in *.
  - exists 0%nat. cbn. repeat split; try constructor. intros x Hx. discriminate Hx.
  - cbn [loop_calls loop_exception yielded].
    destruct (block (project branch)) as [x|] eqn:Hb.
    + exists 1%nat. cbn [yielded take map fst List.length Nat.sub].
      split; [lia|]. split; [reflexivity|]. split; [constructor|].
      split; [discriminate|]. intros y [= <-]. now exists (project branch).
    + destruct IH as (n & Hn & Hys & Hbut & Hnone & Hsome).
      exists (Datatypes.S n). cbn [take map fst List.length].
      split; [lia|]. split; [now rewrite Hys at 1|].
      split; [|split].
      * replace (Datatypes.S n - 1)%nat with n by lia.
        destruct n as [|n]; [constructor|]. cbn [take].
        constructor; [exact Hb|].
        now replace (Datatypes.S n - 1)%nat with n in Hbut by lia.
      * intros Hx. destruct (Hnone Hx) as [-> Hall]. split; [reflexivity|].
        now constructor.
      * intros y Hy. destruct (Hsome y Hy) as (v & Hlast & Hv).
        exists v. split; [|exact Hv].
        rewrite last_cons. now rewrite Hlast.
Qed.

(** X6: a block-driven iteration yields the branches the cursor holds, in
    the cursor's order and without skipping any, as branch objects for each
    and as shorthand names for each_name.  It stops at the first value on
    which the block leaves through an exception, which is then raised;
    otherwise it yields every branch and ends with nil, or with the store's
    error if the cursor ended on one.  When the cursor cannot be created
    nothing is yielded. *)
Theorem yields_in_cursor_order (filter : git_branch_t)
    (block : VALUE -> option exception) (names_only : bool) (w : world S) :
  let run := each_branch_iterate filter block names_only w in
  let ys := yielded (new_calls w (snd run)) in
  match engine_branch_iterator_new (repo w) filter with
  | Git_ok iter =>
    exists n,
      (n <= List.length (pending iter))%nat
      /\ ys = map (fun b => projection names_only (fst b)) (take n (pending iter))
      /\ Forall (fun v => block v = None) (take (n - 1) ys)
      /\ ((exists v x, last ys = Some v /\ block v = Some x /\ fst run = Raise x)
          \/ (n = List.length (pending iter)
              /\ Forall (fun v => block v = None) ys
              /\ fst run = if decide (final iter = GIT_ITEROVER) then Return Qnil
                           else Raise (RuggedError (git_errno (final iter)))))
  | Git_err _ => ys = [] /\ fst run = Undefined
  end.
Proof.
  cbv zeta.
  destruct (engine_branch_iterator_new (repo w) filter) as [iter|e] eqn:Hnew.
  - rewrite (each_branch_iterate_run filter block names_only iter w Hnew).
    cbv zeta. cbn [fst snd]. rewrite new_calls_logged.
    change (if names_only
            then fun branch => rb_str_new_utf8 (git_reference_shorthand branch)
            else rugged_branch_new) with (projection names_only).
    cbn [yielded]. rewrite yielded_app. cbn [yielded]. rewrite app_nil_r.
    destruct (loop_yields (projection names_only) block (pending iter))
      as (n & Hn & Hys & Hbut & Hnone & Hsome).
    exists n. split; [exact Hn|]. split; [exact Hys|]. split; [exact Hbut|].
    destruct (loop_exception (projection names_only) block (pending iter)) as [x|].
    + left. destruct (Hsome x eq_refl) as (v & Hlast & Hv). now exists v, x.
    + right. destruct (Hnone eq_refl) as [-> Hall]. now repeat split.
  - rewrite (each_branch_iterate_uncreated filter block names_only e w Hnew).
    cbn [fst snd]. rewrite new_calls_logged. now split.
Qed.

End IterationFootprint.

(** ** The mutating entry points, step by step *)

Section Mutators.

Context {S : Type} {E : Engine S}.

Lemma Check_Type_run (v : VALUE) (t : ruby_value_type) (w : world S) :
  Check_Type v t w
  = if decide (TYPE v = t) then (Return tt, w)
    else (Raise (wrong_argument_type v t), w).
Proof. unfold Check_Type. now destruct (decide (TYPE v = t)). Qed.

Lemma force_run (rb_force : VALUE) (w : world S) :
  (if negb (NIL_P rb_force) then rugged_parse_bool rb_force else ret 0) w
  = match parsed_force rb_force with
    | Some force => (Return force, w)
    | None => (Raise (TypeError "Expected boolean value"), w)
    end.
Proof. now destruct rb_force. Qed.

Lemma parsed_force_range (rb_force : VALUE) (force : Z) :
  parsed_force rb_force = Some force -> force = 0 \/ force = 1.
Proof. destruct rb_force; intros [= <-]; tauto. Qed.

(** X7: create checks, in this order, the count of its arguments, that the
    name is a string, that the target is a string and that force is nil or a
    boolean, all before any call; it then resolves the target, and an
    unresolved target or a NUL byte in the name ends the call before the
    engine is asked to write.  Only then is [git_branch_create] called, with
    the name as given, the resolved commit and force 1 for true and 0
    otherwise; its success is returned as a branch handle and its failure
    raised. *)
Theorem create_steps (rb_name rb_target rb_force : VALUE) (w : world S) :
  let created := rb_git_branch_collection_create [rb_name; rb_target; rb_force] w in
  (TYPE rb_name <> T_STRING ->
     created = (Raise (wrong_argument_type rb_name T_STRING), w))
  /\ (TYPE rb_name = T_STRING -> TYPE rb_target <> T_STRING ->
      created = (Raise (wrong_argument_type rb_target T_STRING), w))
  /\ (TYPE rb_name = T_STRING -> TYPE rb_target = T_STRING ->
      parsed_force rb_force = None ->
      created = (Raise (TypeError "Expected boolean value"), w))
  /\ (forall name force,
        rb_name = RString name -> TYPE rb_target = T_STRING ->
        parsed_force rb_force = Some force ->
        match engine_object_get (repo w) rb_target with
        | inl x => created = (Raise x, logged w [object_get_call rb_target])
        | inr commit =>
          if CString.has_nul name then
            created = (Raise (ArgumentError "string contains null byte"),
                       logged w [object_get_call rb_target])
          else
            created
            = (engine_outcome (fst (engine_branch_create (repo w) name commit force))
                              rugged_branch_new,
               mk_world (snd (engine_branch_create (repo w) name commit force))
                        (calls w ++ [object_get_call rb_target;
                                     branch_create_call name commit force])
                        (live_iterators w))
        end)
  /\ rb_git_branch_collection_create [rb_name; rb_target] w
     = rb_git_branch_collection_create [rb_name; rb_target; Qnil] w
  /\ (forall argv, List.length argv <> 2%nat -> List.length argv <> 3%nat ->
        rb_git_branch_collection_create argv w
        = (Raise (ArgumentError "wrong number of arguments"), w)).
Proof.
  cbv zeta.
  assert (Hrun : rb_git_branch_collection_create [rb_name; rb_target; rb_force] w
    = bind (Check_Type rb_name T_STRING) (fun _ =>
      bind (Check_Type rb_target T_STRING) (fun _ =>
      bind (if negb (NIL_P rb_force) then rugged_parse_bool rb_force else ret 0)
           (fun force =>
      bind (rugged_object_get rb_target) (fun target =>
      bind (StringValueCStr rb_name) (fun name =>
      bind (git_branch_create name target force) (fun r =>
      bind (rugged_exception_check (error_of r)) (fun _ =>
      bind (out_param r) (fun branch => ret (rugged_branch_new branch))))))))) w)
    by reflexivity.
  rewrite Hrun. clear Hrun.
  rewrite bind_run, Check_Type_run.
  split; [|split; [|split; [|split; [|split]]]].
  - intros Ht. now destruct (decide (TYPE rb_name = T_STRING)) as [Hs|Hs].
  - intros Hn Ht. destruct (decide (TYPE rb_name = T_STRING)) as [Hs|Hs]; [|contradiction].
    rewrite bind_run, Check_Type_run.
    now destruct (decide (TYPE rb_target = T_STRING)) as [Hs'|Hs'].
  - intros Hn Ht Hf. destruct (decide (TYPE rb_name = T_STRING)) as [Hs|Hs]; [|contradiction].
    rewrite bind_run, Check_Type_run.
    destruct (decide (TYPE rb_target = T_STRING)) as [Hs'|Hs']; [|contradiction].
    now rewrite bind_run, force_run, Hf.
  - intros name force -> Ht Hf.
    destruct (decide (TYPE (RString name) = T_STRING)) as [_|Hne];
      [|now destruct Hne].
    rewrite bind_run, Check_Type_run.
    destruct (decide (TYPE rb_target = T_STRING)) as [Hs'|Hs']; [|contradiction].
    rewrite bind_run, force_run, Hf.
    rewrite bind_run. unfold rugged_object_get. rewrite bind_run. cbn [log repo].
    destruct (engine_object_get (repo w) rb_target) as [x|commit]; [reflexivity|].
    rewrite bind_run. unfold StringValueCStr.
    destruct (CString.has_nul name); [reflexivity|].
    unfold ret at 1. rewrite bind_run. unfold git_branch_create, update.
    rewrite bind_run. cbn [log repo calls live_iterators].
    destruct (engine_branch_create (repo w) name commit force) as [[b|e] db'];
      cbn [fst snd engine_outcome].
    + rewrite bind_run. cbn [error_of]. rewrite rugged_exception_check_ok.
      cbn [out_param]. rewrite bind_ret. unfold ret. now rewrite <- app_assoc.
    + rewrite bind_run. cbn [error_of]. rewrite rugged_exception_check_err.
      now rewrite <- app_assoc.
  - reflexivity.
  - intros argv H2 H3. destruct argv as [|a [|b [|c [|d argv]]]]; try reflexivity;
      cbn in H2, H3; congruence.
Qed.

(** X8: move checks that the new name is a string before it resolves the
    branch, so a new name of another type is refused without any lookup;
    whatever the resolution raises or reports is raised before force is
    looked at; with the branch resolved, a force that is neither nil nor a
    boolean, or a NUL byte in the new name, ends the call before the engine
    is asked to write.  Only then is [git_branch_move] called, with the
    resolved reference, the new name as given and force 1 for true and 0
    otherwise; its success is returned as a branch handle and its failure
    raised. *)
Theorem move_steps (rb_name_or_branch rb_new_branch_name rb_force : VALUE)
    (w : world S) :
  let resolved := rugged_branch_lookup rb_name_or_branch w in
  let moved :=
    rb_git_branch_collection_move [rb_name_or_branch; rb_new_branch_name; rb_force] w in
  (TYPE rb_new_branch_name <> T_STRING ->
     moved = (Raise (wrong_argument_type rb_new_branch_name T_STRING), w))
  /\ (TYPE rb_new_branch_name = T_STRING ->
      (forall x, fst resolved = Raise x -> moved = (Raise x, snd resolved))
      /\ (forall e, fst resolved = Return (Git_err e) ->
            moved = (Raise (RuggedError (git_errno e)), snd resolved)))
  /\ (forall new_name old,
        rb_new_branch_name = RString new_name ->
        fst resolved = Return (Git_ok old) ->
        match parsed_force rb_force with
        | None => moved = (Raise (TypeError "Expected boolean value"), snd resolved)
        | Some force =>
          if CString.has_nul new_name then
            moved = (Raise (ArgumentError "string contains null byte"), snd resolved)
          else
            moved
            = (engine_outcome
                 (fst (engine_branch_move (repo (snd resolved)) old new_name force))
                 rugged_branch_new,
               mk_world
                 (snd (engine_branch_move (repo (snd resolved)) old new_name force))
                 (calls (snd resolved) ++ [branch_move_call old new_name force])
                 (live_iterators (snd resolved)))
        end)
  /\ rb_git_branch_collection_move [rb_name_or_branch; rb_new_branch_name] w
     = rb_git_branch_collection_move [rb_name_or_branch; rb_new_branch_name; Qnil] w
  /\ (forall argv, List.length argv <> 2%nat -> List.length argv <> 3%nat ->
        rb_git_branch_collection_move argv w
        = (Raise (ArgumentError "wrong number of arguments"), w)).
Proof.
  cbv zeta.
  assert (Hrun :
    rb_git_branch_collection_move [rb_name_or_branch; rb_new_branch_name; rb_force] w
    = bind (Check_Type rb_new_branch_name T_STRING) (fun _ =>
      bind (rugged_branch_lookup rb_name_or_branch) (fun r =>
      bind (rugged_exception_check (error_of r)) (fun _ =>
      bind (out_param r) (fun old_branch =>
      bind (if negb (NIL_P rb_force) then rugged_parse_bool rb_force else ret 0)
           (fun force =>
      bind (StringValueCStr rb_new_branch_name) (fun new_branch_name =>
      bind (git_branch_move old_branch new_branch_name force) (fun r0 =>
      bind (rugged_exception_check (error_of r0)) (fun _ =>
      bind (out_param r0) (fun new_branch =>
        ret (rugged_branch_new new_branch)))))))))) w)
    by reflexivity.
  rewrite Hrun. clear Hrun.
  rewrite bind_run, Check_Type_run.
  split; [|split; [|split; [|split]]].
  - intros Ht. now destruct (decide (TYPE rb_new_branch_name = T_STRING)) as [Hs|Hs].
  - intros Ht. destruct (decide (TYPE rb_new_branch_name = T_STRING)) as [Hs|Hs];
      [|contradiction].
    rewrite bind_run.
    destruct (rugged_branch_lookup rb_name_or_branch w) as [[r|y|] w1]; cbn [fst snd].
    + split; [discriminate|]. intros e [= ->].
      rewrite bind_run. cbn [error_of]. now rewrite rugged_exception_check_err.
    + split; [now intros x [= ->]|discriminate].
    + split; discriminate.
  - intros new_name old -> Hres.
    destruct (decide (TYPE (RString new_name) = T_STRING)) as [_|Hne];
      [|now destruct Hne].
    rewrite bind_run.
    destruct (rugged_branch_lookup rb_name_or_branch w) as [[r|y|] w1];
      cbn [fst snd] in *; try discriminate Hres.
    injection Hres as ->.
    rewrite bind_run. cbn [error_of]. rewrite rugged_exception_check_ok.
    cbn [out_param]. rewrite bind_ret, bind_run, force_run.
    destruct (parsed_force rb_force) as [force|]; [|reflexivity].
    rewrite bind_run. unfold StringValueCStr.
    destruct (CString.has_nul new_name); [reflexivity|].
    unfold ret at 1. rewrite bind_run. unfold git_branch_move, update.
    rewrite bind_run. cbn [log repo calls live_iterators].
    destruct (engine_branch_move (repo w1) old new_name force) as [[b|e] db'];
      cbn [fst snd engine_outcome].
    + rewrite bind_run. cbn [error_of]. rewrite rugged_exception_check_ok.
      cbn [out_param]. now rewrite bind_ret.
    + rewrite bind_run. cbn [error_of]. now rewrite rugged_exception_check_err.
  - reflexivity.
  - intros argv H2 H3. destruct argv as [|a [|b [|c [|d argv]]]]; try reflexivity;
      cbn in H2, H3; congruence.
Qed.

(** X9: delete raises whatever the resolution raises or reports, NotFound or
    not, without asking the engine to delete; with the branch resolved it
    calls [git_branch_delete] on exactly the resolved reference, returns nil
    when the engine succeeds and raises its error otherwise. *)
Theorem delete_steps (rb_name_or_branch : VALUE) (w : world S) :
  let resolved := rugged_branch_lookup rb_name_or_branch w in
  let deleted := rb_git_branch_collection_delete rb_name_or_branch w in
  (forall x, fst resolved = Raise x -> deleted = (Raise x, snd resolved))
  /\ (forall e, fst resolved = Return (Git_err e) ->
        deleted = (Raise (RuggedError (git_errno e)), snd resolved))
  /\ (forall old, fst resolved = Return (Git_ok old) ->
        deleted
        = (engine_outcome (fst (engine_branch_delete (repo (snd resolved)) old))
                          (fun _ => Qnil),
           mk_world (snd (engine_branch_delete (repo (snd resolved)) old))
                    (calls (snd resolved) ++ [branch_delete_call old])
                    (live_iterators (snd resolved)))).
Proof.
  cbv zeta. unfold rb_git_branch_collection_delete. rewrite bind_run.
  destruct (rugged_branch_lookup rb_name_or_branch w) as [[r|y|] w1]; cbn [fst snd].
  - split; [discriminate|]. split.
    + intros e [= ->]. rewrite bind_run. cbn [error_of].
      now rewrite rugged_exception_check_err.
    + intros old [= ->]. rewrite bind_run. cbn [error_of].
      rewrite rugged_exception_check_ok. cbn [out_param]. rewrite bind_ret.
      rewrite bind_run. unfold git_branch_delete, update. rewrite bind_run.
      cbn [log repo calls live_iterators].
      destruct (engine_branch_delete (repo w1) old) as [[u|e] db'];
        cbn [fst snd engine_outcome].
      * rewrite bind_run. cbn [error_of]. now rewrite rugged_exception_check_ok.
      * rewrite bind_run. cbn [error_of]. now rewrite rugged_exception_check_err.
  - split; [now intros x [= ->]|]. split; discriminate.
  - split; [discriminate|]. split; discriminate.
Qed.

Lemma new_calls_mk (w : world S) (r : S) (cs : list call) (n : nat) :
  new_calls w (mk_world r (calls w ++ cs) n) = cs.
Proof. unfold new_calls; cbn [calls]. now rewrite drop_app_length. Qed.

Lemma lookup_not_write (cs : list call) :
  Forall (fun c => is_lookup_call c = true) cs ->
  Forall (fun c => is_write_call c = false) cs.
Proof. intros Hcs. eapply Forall_impl; [exact Hcs|]. intros c Hc. now destruct c. Qed.

Lemma engine_outcome_defined {A} (r : git_result A) (value : A -> VALUE) :
  engine_outcome r value <> Undefined.
Proof. now destruct r. Qed.

(** create and move with three arguments, run. *)
Lemma create_run3 (rb_name rb_target rb_force : VALUE) (w : world S) :
  rb_git_branch_collection_create [rb_name; rb_target; rb_force] w
  = if decide (TYPE rb_name = T_STRING) then
      if decide (TYPE rb_target = T_STRING) then
        match parsed_force rb_force with
        | None => (Raise (TypeError "Expected boolean value"), w)
        | Some force =>
          match engine_object_get (repo w) rb_target with
          | inl x => (Raise x, logged w [object_get_call rb_target])
          | inr commit =>
            match rb_name with
            | RString name =>
              if CString.has_nul name then
                (Raise (ArgumentError "string contains null byte"),
                 logged w [object_get_call rb_target])
              else
                (engine_outcome (fst (engine_branch_create (repo w) name commit force))
                                rugged_branch_new,
                 mk_world (snd (engine_branch_create (repo w) name commit force))
                          (calls w ++ [object_get_call rb_target]
                                   ++ [branch_create_call name commit force])
                          (live_iterators w))
            | _ => (Raise (wrong_argument_type rb_name T_STRING),
                    logged w [object_get_call rb_target])
            end
          end
        end
      else (Raise (wrong_argument_type rb_target T_STRING), w)
    else (Raise (wrong_argument_type rb_name T_STRING), w).
Proof.
  assert (Hrun : rb_git_branch_collection_create [rb_name; rb_target; rb_force] w
    = bind (Check_Type rb_name T_STRING) (fun _ =>
      bind (Check_Type rb_target T_STRING) (fun _ =>
      bind (if negb (NIL_P rb_force) then rugged_parse_bool rb_force else ret 0)
           (fun force =>
      bind (rugged_object_get rb_target) (fun target =>
      bind (StringValueCStr rb_name) (fun name =>
      bind (git_branch_create name target force) (fun r =>
      bind (rugged_exception_check (error_of r)) (fun _ =>
      bind (out_param r) (fun branch => ret (rugged_branch_new branch))))))))) w)
    by reflexivity.
  rewrite Hrun. clear Hrun. rewrite bind_run, Check_Type_run.
  destruct (decide (TYPE rb_name = T_STRING)) as [Hs|Hs]; [|reflexivity].
  rewrite bind_run, Check_Type_run.
  destruct (decide (TYPE rb_target = T_STRING)) as [Hs'|Hs']; [|reflexivity].
  rewrite bind_run, force_run.
  destruct (parsed_force rb_force) as [force|]; [|reflexivity].
  rewrite bind_run. unfold rugged_object_get. rewrite bind_run. cbn [log repo].
  destruct (engine_object_get (repo w) rb_target) as [x|commit]; [reflexivity|].
  rewrite bind_run.
  destruct rb_name; try discriminate Hs. unfold StringValueCStr.
  destruct (CString.has_nul s); [reflexivity|].
  unfold ret at 1. rewrite bind_run. unfold git_branch_create, update.
  rewrite bind_run. cbn [log repo calls live_iterators].
  destruct (engine_branch_create (repo w) s commit force) as [[b|e] db'];
    cbn [fst snd engine_outcome].
  - rewrite bind_run. cbn [error_of]. rewrite rugged_exception_check_ok.
    cbn [out_param]. rewrite bind_ret. unfold ret. now rewrite <- app_assoc.
  - rewrite bind_run. cbn [error_of]. rewrite rugged_exception_check_err.
    now rewrite <- app_assoc.
Qed.

(** An entry point that writes either raises after calls that wrote nothing,
    or ends with the one call that writes. *)
Lemma create_shape (argv : list VALUE) (w : world S) :
  (exists x cs, rb_git_branch_collection_create argv w = (Raise x, logged w cs)
                /\ Forall (fun c => is_write_call c = false) cs)
  \/ (exists (r : git_result git_reference) db' cs c,
        rb_git_branch_collection_create argv w
        = (engine_outcome r rugged_branch_new,
           mk_world db' (calls w ++ cs ++ [c]) (live_iterators w))
        /\ is_write_call c = true
        /\ Forall (fun c => is_write_call c = false) cs).
Proof.
  assert (Hraise : forall x, exists y cs,
             (Raise x, w) = (@Raise VALUE y, logged w cs)
             /\ Forall (fun c => is_write_call c = false) cs).
  { intros x. exists x, []. rewrite logged_nil. now split. }
  assert (H3 : forall rb_name rb_target rb_force,
    (exists x cs, rb_git_branch_collection_create [rb_name; rb_target; rb_force] w
                  = (Raise x, logged w cs)
                  /\ Forall (fun c => is_write_call c = false) cs)
    \/ (exists (r : git_result git_reference) db' cs c,
          rb_git_branch_collection_create [rb_name; rb_target; rb_force] w
          = (engine_outcome r rugged_branch_new,
             mk_world db' (calls w ++ cs ++ [c]) (live_iterators w))
          /\ is_write_call c = true
          /\ Forall (fun c => is_write_call c = false) cs)).
  { intros rb_name rb_target rb_force. rewrite create_run3.
    destruct (decide (TYPE rb_name = T_STRING)) as [Hs|Hs]; [|left; apply Hraise].
    destruct (decide (TYPE rb_target = T_STRING)) as [Hs'|Hs']; [|left; apply Hraise].
    destruct (parsed_force rb_force) as [force|]; [|left; apply Hraise].
    destruct (engine_object_get (repo w) rb_target) as [x|commit].
    { left. do 2 eexists. split; [reflexivity|]. repeat constructor. }
    destruct rb_name; try discriminate Hs.
    destruct (CString.has_nul s).
    - left. do 2 eexists. split; [reflexivity|]. repeat constructor.
    - right. do 4 eexists. split; [reflexivity|]. split; [reflexivity|].
      repeat constructor. }
  destruct argv as [|rb_name [|rb_target [|rb_force [|d argv]]]];
    try (left; apply Hraise).
  - apply (H3 rb_name rb_target Qnil).
  - apply H3.
Qed.

Lemma move_run3 (rb_name_or_branch rb_new_branch_name rb_force : VALUE) (w : world S) :
  rb_git_branch_collection_move [rb_name_or_branch; rb_new_branch_name; rb_force] w
  = if decide (TYPE rb_new_branch_name = T_STRING) then
      match rugged_branch_lookup rb_name_or_branch w with
      | (Return r, w1) =>
        match r with
        | Git_err e => (Raise (RuggedError (git_errno e)), w1)
        | Git_ok old =>
          match parsed_force rb_force with
          | None => (Raise (TypeError "Expected boolean value"), w1)
          | Some force =>
            match rb_new_branch_name with
            | RString new_name =>
              if CString.has_nul new_name then
                (Raise (ArgumentError "string contains null byte"), w1)
              else
                (engine_outcome (fst (engine_branch_move (repo w1) old new_name force))
                                rugged_branch_new,
                 mk_world (snd (engine_branch_move (repo w1) old new_name force))
                          (calls w1 ++ [branch_move_call old new_name force])
                          (live_iterators w1))
            | _ => (Raise (wrong_argument_type rb_new_branch_name T_STRING), w1)
            end
          end
        end
      | (Raise x, w1) => (Raise x, w1)
      | (Undefined, w1) => (Undefined, w1)
      end
    else (Raise (wrong_argument_type rb_new_branch_name T_STRING), w).
Proof.
  assert (Hrun :
    rb_git_branch_collection_move [rb_name_or_branch; rb_new_branch_name; rb_force] w
    = bind (Check_Type rb_new_branch_name T_STRING) (fun _ =>
      bind (rugged_branch_lookup rb_name_or_branch) (fun r =>
      bind (rugged_exception_check (error_of r)) (fun _ =>
      bind (out_param r) (fun old_branch =>
      bind (if negb (NIL_P rb_force) then rugged_parse_bool rb_force else ret 0)
           (fun force =>
      bind (StringValueCStr rb_new_branch_name) (fun new_branch_name =>
      bind (git_branch_move old_branch new_branch_name force) (fun r0 =>
      bind (rugged_exception_check (error_of r0)) (fun _ =>
      bind (out_param r0) (fun new_branch =>
        ret (rugged_branch_new new_branch)))))))))) w)
    by reflexivity.
  rewrite Hrun. clear Hrun. rewrite bind_run, Check_Type_run.
  destruct (decide (TYPE rb_new_branch_name = T_STRING)) as [Hs|Hs]; [|reflexivity].
  rewrite bind_run.
  destruct (rugged_branch_lookup rb_name_or_branch w) as [[[old|e]|y|] w1];
    try reflexivity.
  2:{ rewrite bind_run. cbn [error_of]. now rewrite rugged_exception_check_err. }
  rewrite bind_run. cbn [error_of]. rewrite rugged_exception_check_ok.
  cbn [out_param]. rewrite bind_ret, bind_run, force_run.
  destruct (parsed_force rb_force) as [force|]; [|reflexivity].
  rewrite bind_run.
  destruct rb_new_branch_name; try discriminate Hs. unfold StringValueCStr.
  destruct (CString.has_nul s); [reflexivity|].
  unfold ret at 1. rewrite bind_run. unfold git_branch_move, update.
  rewrite bind_run. cbn [log repo calls live_iterators].
  destruct (engine_branch_move (repo w1) old s force) as [[b|e] db'];
    cbn [fst snd engine_outcome].
  - rewrite bind_run. cbn [error_of]. rewrite rugged_exception_check_ok.
    cbn [out_param]. now rewrite bind_ret.
  - rewrite bind_run. cbn [error_of]. now rewrite rugged_exception_check_err.
Qed.

Lemma move_shape (argv : list VALUE) (w : world S) :
  (exists x cs, rb_git_branch_collection_move argv w = (Raise x, logged w cs)
                /\ Forall (fun c => is_write_call c = false) cs)
  \/ (exists (r : git_result git_reference) db' cs c,
        rb_git_branch_collection_move argv w
        = (engine_outcome r rugged_branch_new,
           mk_world db' (calls w ++ cs ++ [c]) (live_iterators w))
        /\ is_write_call c = true
        /\ Forall (fun c => is_write_call c = false) cs).
Proof.
  assert (Hraise : forall x, exists y cs,
             (Raise x, w) = (@Raise VALUE y, logged w cs)
             /\ Forall (fun c => is_write_call c = false) cs).
  { intros x. exists x, []. rewrite logged_nil. now split. }
  assert (H3 : forall v rb_new rb_force,
    (exists x cs, rb_git_branch_collection_move [v; rb_new; rb_force] w
                  = (Raise x, logged w cs)
                  /\ Forall (fun c => is_write_call c = false) cs)
    \/ (exists (r : git_result git_reference) db' cs c,
          rb_git_branch_collection_move [v; rb_new; rb_force] w
          = (engine_outcome r rugged_branch_new,
             mk_world db' (calls w ++ cs ++ [c]) (live_iterators w))
          /\ is_write_call c = true
          /\ Forall (fun c => is_write_call c = false) cs)).
  { intros v rb_new rb_force. rewrite move_run3.
    destruct (decide (TYPE rb_new = T_STRING)) as [Hs|Hs]; [|left; apply Hraise].
    destruct (rugged_branch_lookup_shape v w)
      as [(x & -> & _)|(r & cs & -> & _ & Hcs)]; [left; apply Hraise|].
    apply lookup_not_write in Hcs.
    destruct r as [old|e]; [|left; now exists (RuggedError (git_errno e)), cs].
    destruct (parsed_force rb_force) as [force|]; [|left; now eexists _, cs].
    destruct rb_new; try discriminate Hs.
    destruct (CString.has_nul s); [left; now eexists _, cs|].
    right. exists (fst (engine_branch_move (repo (logged w cs)) old s force)),
             (snd (engine_branch_move (repo (logged w cs)) old s force)),
             cs, (branch_move_call old s force).
    cbn [logged calls live_iterators]. rewrite <- app_assoc. now repeat split. }
  destruct argv as [|v [|rb_new [|rb_force [|d argv]]]]; try (left; apply Hraise).
  - apply (H3 v rb_new Qnil).
  - apply H3.
Qed.

Lemma delete_shape (v : VALUE) (w : world S) :
  (exists x cs, rb_git_branch_collection_delete v w = (Raise x, logged w cs)
                /\ Forall (fun c => is_write_call c = false) cs)
  \/ (exists (r : git_result unit) db' cs c,
        rb_git_branch_collection_delete v w
        = (engine_outcome r (fun _ => Qnil),
           mk_world db' (calls w ++ cs ++ [c]) (live_iterators w))
        /\ is_write_call c = true
        /\ Forall (fun c => is_write_call c = false) cs).
Proof.
  unfold rb_git_branch_collection_delete. rewrite bind_run.
  destruct (rugged_branch_lookup_shape v w)
    as [(x & -> & _)|(r & cs & -> & _ & Hcs)].
  { left. exists x, []. rewrite logged_nil. now split. }
  apply lookup_not_write in Hcs.
  destruct r as [old|e].
  - right. rewrite bind_run. cbn [error_of]. rewrite rugged_exception_check_ok.
    cbn [out_param]. rewrite bind_ret.
    rewrite bind_run. unfold git_branch_delete, update. rewrite bind_run.
    cbn [log logged repo calls live_iterators].
    exists (fst (engine_branch_delete (repo w) old)),
           (snd (engine_branch_delete (repo w) old)), cs, (branch_delete_call old).
    destruct (engine_branch_delete (repo w) old) as [[u|e] db'];
      cbn [fst snd engine_outcome].
    + rewrite bind_run. cbn [error_of]. rewrite rugged_exception_check_ok.
      rewrite <- app_assoc. now repeat split.
    + rewrite bind_run. cbn [error_of]. rewrite rugged_exception_check_err.
      rewrite <- app_assoc. now repeat split.
  - left. rewrite bind_run. cbn [error_of]. rewrite rugged_exception_check_err.
    now exists (RuggedError (git_errno e)), cs.
Qed.

(** X10: create, move and delete write to the store at most once, and
    last: whatever their arguments, either they raise after calls none of
    which writes, leaving the repository as it was, or the call that writes
    is the last thing they do before they return or raise.  They never read
    the out-parameter of a failed call and never touch a cursor. *)
Theorem mutators_write_last (argv : list VALUE) (v : VALUE) (w : world S) :
  let writes_last := fun res : outcome VALUE * world S =>
    fst res <> Undefined
    /\ live_iterators (snd res) = live_iterators w
    /\ ((Forall (fun c => is_write_call c = false) (new_calls w (snd res))
         /\ repo (snd res) = repo w
         /\ exists x, fst res = Raise x)
        \/ (exists pre c, new_calls w (snd res) = (pre ++ [c])%list
                          /\ is_write_call c = true
                          /\ Forall (fun c => is_write_call c = false) pre)) in
  writes_last (rb_git_branch_collection_create argv w)
  /\ writes_last (rb_git_branch_collection_move argv w)
  /\ writes_last (rb_git_branch_collection_delete v w).
Proof.
  cbv zeta.
  assert (Hshape : forall (A : Type) (value : A -> VALUE) (res : outcome VALUE * world S),
    (exists x cs, res = (Raise x, logged w cs)
                  /\ Forall (fun c => is_write_call c = false) cs)
    \/ (exists (r : git_result A) db' cs c,
          res = (engine_outcome r value,
                 mk_world db' (calls w ++ cs ++ [c]) (live_iterators w))
          /\ is_write_call c = true
          /\ Forall (fun c => is_write_call c = false) cs) ->
    fst res <> Undefined
    /\ live_iterators (snd res) = live_iterators w
    /\ ((Forall (fun c => is_write_call c = false) (new_calls w (snd res))
         /\ repo (snd res) = repo w
         /\ exists x, fst res = Raise x)
        \/ (exists pre c, new_calls w (snd res) = (pre ++ [c])%list
                          /\ is_write_call c = true
                          /\ Forall (fun c => is_write_call c = false) pre))).
  { intros A value res [(x & cs & -> & Hcs)|(r & db' & cs & c & -> & Hc & Hcs)];
      cbn [fst snd].
    - split; [discriminate|]. split; [reflexivity|]. left.
      rewrite new_calls_logged. split; [exact Hcs|]. split; [reflexivity|]. now exists x.
    - split; [apply engine_outcome_defined|]. split; [reflexivity|]. right.
      rewrite new_calls_mk. now exists cs, c. }
  split; [|split].
  - apply (Hshape git_reference rugged_branch_new), create_shape.
  - apply (Hshape git_reference rugged_branch_new), move_shape.
  - apply (Hshape unit (fun _ => Qnil)), delete_shape.
Qed.

(** X11: when a bare name has a local branch, delete and move act on that
    local branch after a single lookup, whether or not a remote branch of the
    same name exists: the remote namespace is not consulted. *)
Theorem bare_name_mutates_local (name : string) (local : git_reference) (w : world S) :
  CString.has_nul name = false ->
  bare_name name ->
  engine_branch_lookup (repo w) name GIT_BRANCH_LOCAL = Git_ok local ->
  rb_git_branch_collection_delete (RString name) w
  = (engine_outcome (fst (engine_branch_delete (repo w) local)) (fun _ => Qnil),
     mk_world (snd (engine_branch_delete (repo w) local))
              (calls w ++ [branch_lookup_call name GIT_BRANCH_LOCAL;
                           branch_delete_call local])
              (live_iterators w))
  /\ (forall new_name rb_force force,
        CString.has_nul new_name = false ->
        parsed_force rb_force = Some force ->
        rb_git_branch_collection_move [RString name; RString new_name; rb_force] w
        = (engine_outcome (fst (engine_branch_move (repo w) local new_name force))
                          rugged_branch_new,
           mk_world (snd (engine_branch_move (repo w) local new_name force))
                    (calls w ++ [branch_lookup_call name GIT_BRANCH_LOCAL;
                                 branch_move_call local new_name force])
                    (live_iterators w))).
Proof.
  intros Hn Hq Hlocal.
  assert (Hres : rugged_branch_lookup (RString name) w
                 = (Return (Git_ok local),
                    logged w [branch_lookup_call name GIT_BRANCH_LOCAL])).
  { destruct (rugged_branch_lookup_cases name w Hn Hq) as (H1 & _).
    rewrite H1 by (rewrite Hlocal; discriminate). now rewrite Hlocal. }
  split.
  - unfold rb_git_branch_collection_delete. rewrite bind_run, Hres.
    rewrite bind_run. cbn [error_of]. rewrite rugged_exception_check_ok.
    cbn [out_param]. rewrite bind_ret.
    rewrite bind_run. unfold git_branch_delete, update. rewrite bind_run.
    cbn [log logged repo calls live_iterators].
    destruct (engine_branch_delete (repo w) local) as [[u|e] db'];
      cbn [fst snd engine_outcome].
    + rewrite bind_run. cbn [error_of]. rewrite rugged_exception_check_ok.
      now rewrite <- app_assoc.
    + rewrite bind_run. cbn [error_of]. rewrite rugged_exception_check_err.
      now rewrite <- app_assoc.
  - intros new_name rb_force force Hnew Hf. rewrite move_run3.
    destruct (decide (TYPE (RString new_name) = T_STRING)) as [_|Hne];
      [|now destruct Hne].
    rewrite Hres, Hf, Hnew. cbn [logged repo calls live_iterators].
    now rewrite <- app_assoc.
Qed.

(** X12: a bare name is never looked up as written: the one reference the
    resolver asks for by its full name is refs/<name>, and its branch
    lookups carry the name as given with type Local or Remote.  A name such
    as refs/tags/v1 therefore cannot resolve to the reference of that
    name. *)
Theorem bare_name_never_verbatim (name : string) (w : world S) :
  CString.has_nul name = false ->
  bare_name name ->
  let cs := new_calls w (snd (rugged_branch_lookup (RString name) w)) in
  ~ In (reference_lookup_call name) cs
  /\ (forall n, In (reference_lookup_call n) cs -> n = "refs/" ++ name)
  /\ (forall n t, In (branch_lookup_call n t) cs ->
        n = name /\ (t = GIT_BRANCH_LOCAL \/ t = GIT_BRANCH_REMOTE)).
Proof.
  intros Hn Hq cs.
  assert (Hneq : "refs/" ++ name <> name).
  { intros Heq. apply (f_equal String.length) in Heq.
    change (String.length ("refs/" ++ name)) with (5 + String.length name)%nat in Heq.
    lia. }
  assert (Hcs : forall c, In c cs ->
                  c = branch_lookup_call name GIT_BRANCH_LOCAL
                  \/ c = branch_lookup_call name GIT_BRANCH_REMOTE
                  \/ c = reference_lookup_call ("refs/" ++ name)).
  { subst cs. rewrite (rugged_branch_lookup_chain name w Hn Hq). cbv zeta.
    repeat match goal with |- context [if ?b then _ else _] => destruct b end;
      cbn [snd]; rewrite new_calls_logged; intros c Hin; cbn [In] in Hin;
      intuition (subst; auto). }
  split; [|split].
  - intros Hin. destruct (Hcs _ Hin) as [Hc|[Hc|Hc]]; try discriminate Hc.
    injection Hc as Hc. now apply Hneq.
  - intros n Hin. destruct (Hcs _ Hin) as [Hc|[Hc|Hc]]; try discriminate Hc.
    now injection Hc.
  - intros n t Hin. destruct (Hcs _ Hin) as [Hc|[Hc|Hc]]; try discriminate Hc;
      injection Hc as -> ->; auto.
Qed.

End Mutators.

(** ** Further runs on the sample repositories *)

Section FurtherRuns.

Import RefStore Samples.

(** Deleting the bare name x on db_xy, where a local and a remote x exist:
    one lookup, then the local reference is handed to the engine. *)
Lemma bare_name_mutates_local_witness :
  calls (snd (rb_git_branch_collection_delete (RString "x") (session db_xy)))
  = [branch_lookup_call "x" GIT_BRANCH_LOCAL;
     branch_delete_call (mk_reference "refs/heads/x" (Direct "c1"))].
Proof.
  pose proof (bare_name_mutates_local "x" (mk_reference "refs/heads/x" (Direct "c1"))
                (session db_xy) eq_refl eq_refl) as Hlocal.
  destruct Hlocal as [Hdelete _].
  - vm_compute. reflexivity.
  - rewrite Hdelete. reflexivity.
Defined.

(** The tag refs/tags/v1 exists on db_xy, yet the name refs/tags/v1 is never
    looked up as written and resolves to nothing, while tags/v1 finds it. *)
Lemma bare_name_never_verbatim_witness :
  ~ In (reference_lookup_call "refs/tags/v1")
       (new_calls (session db_xy)
          (snd (rugged_branch_lookup (RString "refs/tags/v1") (session db_xy))))
  /\ fst (rugged_branch_lookup (RString "refs/tags/v1") (session db_xy))
     = Return (Git_err GIT_ENOTFOUND)
  /\ fst (rugged_branch_lookup (RString "tags/v1") (session db_xy))
     = Return (Git_ok (mk_reference "refs/tags/v1" (Direct "c1"))).
Proof.
  split.
  - exact (proj1 (bare_name_never_verbatim "refs/tags/v1" (session db_xy)
                    eq_refl eq_refl)).
  - split; vm_compute; reflexivity.
Defined.

(** The order of the checks on the samples: move looks at the type of the
    new name before it resolves, and at force only after; create looks at
    force before it resolves the target. *)
Example check_order_runs :
  rb_git_branch_collection_move [RString "nope"; RFixnum 1; RFixnum 2] (session db_xy)
  = (Raise (TypeError "wrong argument type Fixnum (expected String)"), session db_xy)
  /\ fst (rb_git_branch_collection_move [RString "nope"; RString "z"; RFixnum 2]
            (session db_xy))
     = Raise (RuggedError (git_errno GIT_ENOTFOUND))
  /\ fst (rb_git_branch_collection_move [RString "x"; RString "z"; RFixnum 2]
            (session db_xy))
     = Raise (TypeError "Expected boolean value")
  /\ rb_git_branch_collection_create [RString "z"; RString "nope"; RFixnum 2]
       (session db_xy)
     = (Raise (TypeError "Expected boolean value"), session db_xy).
Proof. repeat split; vm_compute; reflexivity. Qed.

End FurtherRuns.
